(** * Rack utility math (include/util/math.hpp): a shallow embedding

    The header is a leaf library of scalar helpers on [int] and [float]
    and two value types, [Vec] and [Rect].  The embedding keeps the data
    of the C++ code:

    - [int] is a 32-bit two's complement integer, carried as a [Z] with
      the wrap-around of every arithmetic result written out;
    - [float] is IEEE-754 binary32, carried as the Standard Library's
      [spec_float] at precision 24 and maximal exponent 128, so that
      [+], [-], [*] round to nearest-even and comparisons treat NaN and
      signed zeros as the hardware does;
    - pointers are locations of a finite store. *)

From Stdlib Require Import ZArith Lia Bool.
From Stdlib Require Import Floats.SpecFloat.
From stdpp Require Import base option list gmap.

Local Open Scope Z_scope.

(** ** 32-bit integers *)

Module Int.

Definition int_min : Z := - 2 ^ 31.
Definition int_max : Z := 2 ^ 31 - 1.

Definition in_range (z : Z) : Prop := int_min <= z <= int_max.

(** Two's complement wrap-around of a mathematical result. *)
Definition wrap (z : Z) : Z := (z + 2 ^ 31) mod 2 ^ 32 - 2 ^ 31.

(** [a % b]: the remainder of the truncating division.  Undefined for
    a zero divisor, and for [INT_MIN % -1] whose quotient overflows. *)
Definition rem (a b : Z) : option Z :=
  if b =? 0 then None
  else if (a =? int_min) && (b =? -1) then None
  else Some (Z.rem a b).

(** [n >> k] on a signed int: the arithmetic shift. *)
Definition shr (n k : Z) : Z := Z.shiftr n k.

End Int.

(** ** Basic integer functions *)

Definition mini (a b : Z) : Z := if a <? b then a else b.

Definition maxi (a b : Z) : Z := if a >? b then a else b.

Definition clampi (x min max : Z) : Z :=
  if x <? min then min
  else if x >? max then max
  else x.

(** [-a] on an int: undefined when the result does not fit, which is
    the case of [INT_MIN] alone. *)
Definition neg_checked (a : Z) : option Z :=
  if (Int.int_min <=? - a) && (- a <=? Int.int_max) then Some (- a) else None.

Definition absi (a : Z) : option Z :=
  if a >=? 0 then Some a else neg_checked a.

Definition eucmodi (a base : Z) : option Z :=
  mod_ ← Int.rem a base;
  Some (if mod_ >=? 0 then mod_ else Int.wrap (mod_ + base)).

(** The loop [while (n >>= 1) i++] of [log2i]: one iteration per unit of
    fuel; [None] when the fuel runs out before the shifted value is zero. *)
Fixpoint log2i_loop (fuel : nat) (n i : Z) : option Z :=
  match fuel with
  | O => None
  | S fuel' =>
      let n' := Int.shr n 1 in
      if n' =? 0 then Some i
      else log2i_loop fuel' n' (Int.wrap (i + 1))
  end.

Definition log2i (fuel : nat) (n : Z) : option Z := log2i_loop fuel n 0.

Definition ispow2i (n : Z) : bool :=
  (n >? 0) && (Z.land n (Int.wrap (n - 1)) =? 0).

(** ** binary32 floats *)

Module F32.

Definition prec : Z := 24.
Definition emax : Z := 128.

Abbreviation float := spec_float.

Definition nan : float := S754_nan.
Definition zero : float := S754_zero false.
Definition infinity : float := S754_infinity false.
(** The literal [1.f]: mantissa [2^23], exponent [-23]. *)
Definition one : float := S754_finite false 8388608 (-23).

Definition add : float -> float -> float := SFadd prec emax.
Definition sub : float -> float -> float := SFsub prec emax.
Definition mul : float -> float -> float := SFmul prec emax.
Definition div : float -> float -> float := SFdiv prec emax.
Definition opp : float -> float := SFopp.

(** The comparison operators of the language: every one of them is
    false as soon as an operand is NaN. *)
Definition ltb (x y : float) : bool := SFltb x y.
Definition gtb (x y : float) : bool := SFltb y x.
Definition leb (x y : float) : bool := SFleb x y.
Definition geb (x y : float) : bool := SFleb y x.
Definition eqb (x y : float) : bool := SFeqb x y.

Definition is_nan (x : float) : bool :=
  match x with S754_nan => true | _ => false end.

Definition is_finite (x : float) : bool :=
  match x with S754_zero _ | S754_finite _ _ _ => true | _ => false end.

(** Every datum the hardware can hold is canonical: its mantissa and
    exponent are the unique ones of the format. *)
Definition valid (x : float) : bool := valid_binary prec emax x.

(** Conversion [(float) z] of an int: round to nearest, ties to even. *)
Definition of_int (z : Z) : float := binary_normalize prec emax z 0 false.

(** Conversion [(int) x]: truncation towards zero; undefined when the
    truncated value does not fit (NaN and the infinities included). *)
Definition trunc (x : float) : option Z :=
  match x with
  | S754_zero _ => Some 0
  | S754_finite s m e =>
      let a := match e with
               | Zneg k => Z.shiftr (Zpos m) (Zpos k)
               | _ => Z.shiftl (Zpos m) e
               end in
      Some (if s then - a else a)
  | _ => None
  end.

Definition to_int (x : float) : option Z :=
  z ← trunc x;
  if (Int.int_min <=? z) && (z <=? Int.int_max) then Some z else None.

(** The mathematical floor of a finite float. *)
Definition floor (x : float) : option Z :=
  match x with
  | S754_zero _ => Some 0
  | S754_finite s m e =>
      let n := if s then Zneg m else Zpos m in
      Some (match e with
            | Zneg k => n / 2 ^ Zpos k
            | _ => n * 2 ^ e
            end)
  | _ => None
  end.

(** ISO C, F.10.9.2 and F.10.9.3: a NaN argument is missing data, the
    other one is returned; the body given there is
    [(isgreaterequal(x, y) || isnan(y)) ? x : y] for [fmax] and its
    mirror image for [fmin]. *)
Definition fminf (x y : float) : float :=
  if leb x y || is_nan y then x else y.

Definition fmaxf (x y : float) : float :=
  if geb x y || is_nan y then x else y.

Section Sign.
(** [spec_float] has one NaN and no sign bit for it: the bit that
    [copysignf] reads from a NaN is a parameter. *)
Variable nan_sign : bool.

Definition signbit (x : float) : bool :=
  match x with
  | S754_zero s | S754_infinity s | S754_finite s _ _ => s
  | S754_nan => nan_sign
  end.

(** [copysignf(x, y)]: the magnitude of [x] with the sign bit of [y]. *)
Definition copysignf (x y : float) : float :=
  match x with
  | S754_zero _ => S754_zero (signbit y)
  | S754_infinity _ => S754_infinity (signbit y)
  | S754_finite _ m e => S754_finite (signbit y) m e
  | S754_nan => S754_nan
  end.
End Sign.

End F32.

Import F32.

Declare Scope f32_scope.
Delimit Scope f32_scope with f32.
Infix "+" := F32.add : f32_scope.
Infix "-" := F32.sub : f32_scope.
Infix "*" := F32.mul : f32_scope.
Infix "/" := F32.div : f32_scope.
Notation "- x" := (F32.opp x) : f32_scope.
Infix "<?" := F32.ltb : f32_scope.
Infix ">?" := F32.gtb : f32_scope.
Infix "<=?" := F32.leb : f32_scope.
Infix ">=?" := F32.geb : f32_scope.
Infix "=?" := F32.eqb : f32_scope.
Notation "x < y" := (F32.ltb x y = true) : f32_scope.
Notation "x > y" := (F32.gtb x y = true) : f32_scope.
Notation "x <= y" := (F32.leb x y = true) : f32_scope.
Notation "x >= y" := (F32.geb x y = true) : f32_scope.
Notation "x == y" := (F32.eqb x y = true) (at level 70) : f32_scope.

(** ** Basic float functions *)

(** The float cells that pointers designate. *)
Abbreviation loc := positive.
Abbreviation store := (gmap loc float).

Section FloatFunctions.
Local Open Scope f32_scope.

Definition absf (x : float) : float := if x <? zero then - x else x.

Definition sgnf (nan_sign : bool) (x : float) : float :=
  copysignf nan_sign one x.

Definition clampf (x min max : float) : float :=
  if x <? min then min
  else if x >? max then max
  else x.

Definition clamp2f (x min max : float) : float :=
  clampf x (fminf min max) (fmaxf min max).

Definition chopf (x eps : float) : float :=
  if (- eps <? x) && (x <? eps) then zero else x.

Definition rescalef (x xMin xMax yMin yMax : float) : float :=
  yMin + (x - xMin) / (xMax - xMin) * (yMax - yMin).

Definition crossf (a b frac : float) : float := a + frac * (b - a).

(** [p[i]] on the array that [p] points to, with the bounds checked:
    [None] stands for the access outside the array. *)
Definition index (p : list float) (i : Z) : option float :=
  if (i <? 0)%Z then None else p !! Z.to_nat i.

Definition interpf (p : list float) (x : float) : option float :=
  xi ← to_int x;
  let xf := x - of_int xi in
  a ← index p xi;
  b ← index p (Int.wrap (xi + 1));
  Some (crossf a b xf).

(** [cmultf]: the four operands are passed by value, the two results
    are written through [cr] and then through [ci]. *)
Definition cmultf (cr ci : loc) (ar ai br bi : float) (st : store) : store :=
  let st1 := <[cr := ar * br - ai * bi]> st in
  <[ci := ar * bi + ai * br]> st1.

(** A call [cmultf(cr, ci, *par, *pai, *pbr, *pbi)]: the operands are
    read from the store when the arguments are evaluated, before the
    body runs.  [cmultf(&ar, &ai, ar, ai, br, bi)] of the header's
    comment is the case [cr = par], [ci = pai]. *)
Definition cmultf_call (cr ci par pai pbr pbi : loc) (st : store)
  : option store :=
  ar ← st !! par;
  ai ← st !! pai;
  br ← st !! pbr;
  bi ← st !! pbi;
  Some (cmultf cr ci ar ai br bi st).

End FloatFunctions.

(** ** 2D vector and rectangle *)

Record Vec := mkVec { x : float; y : float }.

Record Rect := mkRect { pos : Vec; size : Vec }.

Section Geometry.
Local Open Scope f32_scope.

Definition Vec_plus (a b : Vec) : Vec := mkVec (x a + x b) (y a + y b).

Definition Vec_minus (a b : Vec) : Vec := mkVec (x a - x b) (y a - y b).

Definition fromMinMax (min max : Vec) : Rect :=
  mkRect min (Vec_minus max min).

Definition contains (this : Rect) (v : Vec) : bool :=
  (x (pos this) <=? x v) && (x v <? x (pos this) + x (size this))
  && (y (pos this) <=? y v) && (y v <? y (pos this) + y (size this)).

Definition containsRect (this r : Rect) : bool :=
  (x (pos this) <=? x (pos r))
  && (x (pos r) + x (size r) <=? x (pos this) + x (size this))
  && (y (pos this) <=? y (pos r))
  && (y (pos r) + y (size r) <=? y (pos this) + y (size this)).

Definition intersects (this r : Rect) : bool :=
  ((x (pos this) + x (size this) >? x (pos r))
   && (x (pos r) + x (size r) >? x (pos this)))
  && ((y (pos this) + y (size this) >? y (pos r))
      && (y (pos r) + y (size r) >? y (pos this))).

Definition getBottomRight (this : Rect) : Vec :=
  Vec_plus (pos this) (size this).

Definition clamp (this bound : Rect) : Rect :=
  let rx := clamp2f (x (pos this)) (x (pos bound))
                    (x (pos bound) + x (size bound)) in
  let ry := clamp2f (y (pos this)) (y (pos bound))
                    (y (pos bound) + y (size bound)) in
  let sx := clampf (x (pos this) + x (size this)) (x (pos bound))
                   (x (pos bound) + x (size bound)) - rx in
  let sy := clampf (y (pos this) + y (size this)) (y (pos bound))
                   (y (pos bound) + y (size bound)) - ry in
  mkRect (mkVec rx ry) (mkVec sx sy).

Definition nudge (this bound : Rect) : Rect :=
  let rx := clamp2f (x (pos this)) (x (pos bound))
                    (x (pos bound) + x (size bound) - x (size this)) in
  let ry := clamp2f (y (pos this)) (y (pos bound))
                    (y (pos bound) + y (size bound) - y (size this)) in
  mkRect (mkVec rx ry) (size this).

Definition Vec_clamp (this : Vec) (bound : Rect) : Vec :=
  mkVec (clamp2f (x this) (x (pos bound)) (x (pos bound) + x (size bound)))
        (clamp2f (y this) (y (pos bound)) (y (pos bound) + y (size bound))).

End Geometry.

(** Float and rectangle literals with small integer coordinates. *)
Definition F (z : Z) : float := of_int z.
Definition R (px py sx sy : Z) : Rect :=
  mkRect (mkVec (F px) (F py)) (mkVec (F sx) (F sy)).

(** A point strictly inside a rectangle: inside the open interval between
    the near and the far edge on both axes. *)
Definition inside_open (r : Rect) (v : Vec) : Prop :=
  (F32.ltb (x (pos r)) (x v) = true
   /\ F32.ltb (x v) (F32.add (x (pos r)) (x (size r))) = true)
  /\ (F32.ltb (y (pos r)) (y v) = true
      /\ F32.ltb (y v) (F32.add (y (pos r)) (y (size r))) = true).

(** Two open intervals [(a0, a1)] and [(b0, b1)] overlap when the larger
    of the near ends is strictly below the smaller of the far ends: what
    lies between these two is what the intervals have in common. *)
Definition open_overlap (a0 a1 b0 b1 : float) : Prop :=
  F32.ltb (fmaxf a0 b0) (fminf a1 b1) = true.

(** A finite binary32 datum. *)
Definition datum (v : float) : bool := valid v && is_finite v.


(** ** The rest of the vector and rectangle operations *)

Section GeometryRest.
Local Open Scope f32_scope.

(** The literal [0.5f]. *)
Definition half : float := S754_finite false 8388608 (-24).

Definition Vec_neg (a : Vec) : Vec := mkVec (- x a) (- y a).

Definition Vec_mult (a : Vec) (s : float) : Vec := mkVec (x a * s) (y a * s).

Definition Vec_multv (a b : Vec) : Vec := mkVec (x a * x b) (y a * y b).

Definition Vec_div (a : Vec) (s : float) : Vec := mkVec (x a / s) (y a / s).

Definition Vec_divv (a b : Vec) : Vec := mkVec (x a / x b) (y a / y b).

Definition Vec_dot (a b : Vec) : float := x a * x b + y a * y b.

Definition Vec_min (a b : Vec) : Vec :=
  mkVec (fminf (x a) (x b)) (fminf (y a) (y b)).

Definition Vec_max (a b : Vec) : Vec :=
  mkVec (fmaxf (x a) (x b)) (fmaxf (y a) (y b)).

Definition Vec_isEqual (a b : Vec) : bool := (x a =? x b) && (y a =? y b).

Definition Vec_isZero (a : Vec) : bool := (x a =? zero) && (y a =? zero).

Definition Vec_isFinite (a : Vec) : bool := is_finite (x a) && is_finite (y a).

Definition Rect_isEqual (this r : Rect) : bool :=
  Vec_isEqual (pos this) (pos r) && Vec_isEqual (size this) (size r).

Definition getCenter (this : Rect) : Vec :=
  Vec_plus (pos this) (Vec_mult (size this) half).

Definition getTopRight (this : Rect) : Vec :=
  Vec_plus (pos this) (mkVec (x (size this)) zero).

Definition getBottomLeft (this : Rect) : Vec :=
  Vec_plus (pos this) (mkVec zero (y (size this))).

Definition expand (this other : Rect) : Rect :=
  let rx := fminf (x (pos this)) (x (pos other)) in
  let ry := fminf (y (pos this)) (y (pos other)) in
  let sx := fmaxf (x (pos this) + x (size this))
                  (x (pos other) + x (size other)) - rx in
  let sy := fmaxf (y (pos this) + y (size this))
                  (y (pos other) + y (size other)) - ry in
  mkRect (mkVec rx ry) (mkVec sx sy).

(** [zeroPos]: the position of the default-constructed [r] is [(0, 0)]. *)
Definition zeroPos (this : Rect) : Rect := mkRect (mkVec zero zero) (size this).

End GeometryRest.

(** What [Rect::expand] does on one axis, for rectangles at [p] of size
    [s] and at [q] of size [t], with [rp] and [rs] the position and size
    returned.  The position is the smaller of the two positions and the
    size is the larger of the two far edges minus that position.  Without
    NaN the position is below both positions and the larger far edge above
    both far edges; and when the first rectangle has no negative extent the
    position is not beyond that far edge and the size, their rounded
    difference, is zero or positive. *)
Definition axis_expanded (p s q t rp rs : float) : Prop :=
  let far := fmaxf (F32.add p s) (F32.add q t) in
  rp = fminf p q
  /\ rs = F32.sub far rp
  /\ (is_nan p = false -> is_nan q = false ->
      F32.leb rp p = true /\ F32.leb rp q = true)
  /\ (is_nan (F32.add p s) = false -> is_nan (F32.add q t) = false ->
      F32.leb (F32.add p s) far = true /\ F32.leb (F32.add q t) far = true)
  /\ (F32.leb p (F32.add p s) = true ->
      is_nan q = false -> is_nan (F32.add q t) = false ->
      F32.leb rp far = true
      /\ (datum p = true -> datum q = true ->
          datum (F32.add p s) = true -> datum (F32.add q t) = true ->
          F32.leb zero rs = true)).

(** A zero of either sign. *)
Definition is_zero (v : float) : bool :=
  match v with S754_zero _ => true | _ => false end.

(** * Properties *)

(** ** Integers *)

Lemma wrap_id z : Int.in_range z -> Int.wrap z = z.
Proof.
  unfold Int.in_range, Int.int_min, Int.int_max, Int.wrap. intros H.
  rewrite Z.mod_small; lia.
Qed.

Lemma wrap_range z : Int.in_range (Int.wrap z).
Proof.
  unfold Int.in_range, Int.int_min, Int.int_max, Int.wrap.
  pose proof (Z.mod_pos_bound (z + 2 ^ 31) (2 ^ 32) ltac:(lia)). lia.
Qed.

Lemma rem_defined a base :
  0 < base -> Int.rem a base = Some (Z.rem a base).
Proof.
  intros Hb. unfold Int.rem.
  destruct (Z.eqb_spec base 0); [lia|].
  destruct (Z.eqb_spec base (-1)); [lia|].
  now rewrite andb_false_r.
Qed.

(** The truncating remainder and the flooring one differ by a multiple
    of the base. *)
Lemma rem_mod_congr a base :
  base <> 0 -> Z.rem a base mod base = a mod base.
Proof.
  intros Hb.
  rewrite (Z.quot_rem' a base) at 2.
  rewrite Z.add_comm, Z.mul_comm, Z_mod_plus_full. reflexivity.
Qed.

(** C1. For every int [a] and every int [base > 0], [eucmodi(a, base)]
    is defined, lies in [0, base) and is congruent to [a] modulo [base]. *)
Theorem eucmodi_range_congr (a base : Z) :
  Int.in_range a -> Int.in_range base -> 0 < base ->
  exists r, eucmodi a base = Some r
            /\ 0 <= r < base
            /\ r mod base = a mod base.
Proof.
  intros Ha Hbase Hpos. unfold eucmodi.
  rewrite rem_defined by assumption. cbn.
  pose proof (rem_mod_congr a base ltac:(lia)) as Hc.
  pose proof (Z.rem_bound_abs a base ltac:(lia)) as Hb.
  destruct (Z.geb_spec (Z.rem a base) 0) as [Hge|Hlt].
  - eexists; split; [reflexivity|]. split; [lia|exact Hc].
  - rewrite wrap_id by (unfold Int.in_range, Int.int_min, Int.int_max in *; lia).
    eexists; split; [reflexivity|]. split; [lia|].
    rewrite <- Hc.
    replace (Z.rem a base + base) with (Z.rem a base + 1 * base) by lia.
    apply Z_mod_plus_full.
Qed.

Lemma eucmodi_range_congr_witness :
  exists r, eucmodi (-7) 3 = Some r /\ 0 <= r < 3 /\ r mod 3 = (-7) mod 3.
Proof.
  apply (eucmodi_range_congr (-7) 3);
    unfold Int.in_range, Int.int_min, Int.int_max; lia.
Defined.

(** The loop of [log2i] started on a positive [n] with counter [i] stops
    after [log2 n + 1] tests with the counter advanced by [log2 n]. *)
Lemma log2i_loop_pos fuel : forall n i,
  0 < n -> 0 <= i -> i + Z.log2 n <= Int.int_max ->
  (Z.to_nat (Z.log2 n) < fuel)%nat ->
  log2i_loop fuel n i = Some (i + Z.log2 n).
Proof.
  induction fuel as [|fuel IH]; intros n i Hn Hi Hmax Hfuel; [lia|].
  cbn [log2i_loop]. unfold Int.shr.
  rewrite Z.shiftr_div_pow2 by lia. change (2 ^ 1) with 2.
  destruct (Z.eqb_spec (n / 2) 0) as [Hz|Hnz].
  - assert (n = 1) by (pose proof (Z.div_mod n 2 ltac:(lia));
                       pose proof (Z.mod_pos_bound n 2 ltac:(lia)); lia).
    subst n. f_equal. cbn. lia.
  - assert (H2 : 2 <= n).
    { destruct (Z.lt_ge_cases n 2) as [Hlt|]; [|lia].
      rewrite Z.div_small in Hnz by lia. lia. }
    assert (Hlog : Z.log2 n = Z.log2 (n / 2) + 1).
    { rewrite <- Z.div2_div, Z.div2_spec.
      rewrite Z.log2_shiftr by lia.
      pose proof (Z.log2_le_mono 2 n H2) as Hl. change (Z.log2 2) with 1 in Hl.
      lia. }
    pose proof (Z.log2_nonneg (n / 2)).
    assert (Hpos : 0 < n / 2) by (pose proof (Z.div_pos n 2 ltac:(lia) ltac:(lia)); lia).
    unfold Int.int_max in *.
    rewrite wrap_id by (unfold Int.in_range, Int.int_min, Int.int_max; lia).
    rewrite IH; [f_equal; lia|lia|lia|lia|lia].
Qed.

(** C7. For every int [n >= 1], [log2i(n)] terminates (any fuel of 31
    iterations or more is enough) and returns the [r] with
    [2^r <= n < 2^(r+1)]; [log2i(1) = 0], [log2i(8) = 3], [log2i(15) = 3],
    and [log2i(0)] returns 0. *)
Theorem log2i_floor_log2 (n : Z) (fuel : nat) :
  1 <= n -> Int.in_range n -> (31 <= fuel)%nat ->
  (exists r, log2i fuel n = Some r /\ 0 <= r /\ 2 ^ r <= n < 2 ^ (r + 1))
  /\ log2i fuel 1 = Some 0
  /\ log2i fuel 8 = Some 3
  /\ log2i fuel 15 = Some 3
  /\ log2i fuel 0 = Some 0.
Proof.
  intros Hn Hr Hfuel.
  assert (Hgen : forall m, 1 <= m -> Int.in_range m ->
                           log2i fuel m = Some (Z.log2 m)).
  { intros m Hm [_ Hmax]. unfold log2i.
    assert (Z.log2 m < 31).
    { apply Z.log2_lt_pow2; [lia|]. unfold Int.int_max in Hmax. lia. }
    pose proof (Z.log2_nonneg m).
    rewrite log2i_loop_pos; [reflexivity|lia|lia|unfold Int.int_max; lia|lia]. }
  split; [|split; [|split; [|split]]].
  - exists (Z.log2 n). split; [apply Hgen; assumption|].
    split; [apply Z.log2_nonneg|].
    replace (Z.log2 n + 1) with (Z.succ (Z.log2 n)) by lia.
    apply Z.log2_spec. lia.
  - apply (Hgen 1); unfold Int.in_range, Int.int_min, Int.int_max; lia.
  - apply (Hgen 8); unfold Int.in_range, Int.int_min, Int.int_max; lia.
  - apply (Hgen 15); unfold Int.in_range, Int.int_min, Int.int_max; lia.
  - destruct fuel; [lia|reflexivity].
Qed.

Lemma log2i_floor_log2_witness :
  (exists r, log2i 31 1000 = Some r /\ 0 <= r /\ 2 ^ r <= 1000 < 2 ^ (r + 1))
  /\ log2i 31 1 = Some 0
  /\ log2i 31 8 = Some 3
  /\ log2i 31 15 = Some 3
  /\ log2i 31 0 = Some 0.
Proof.
  apply (log2i_floor_log2 1000 31);
    unfold Int.in_range, Int.int_min, Int.int_max; lia.
Defined.

(** ** The order of floats *)

Section FloatOrder.
Local Open Scope f32_scope.

Lemma SFcompare_antisym (a b : float) :
  SFcompare b a = option_map CompOpp (SFcompare a b).
Proof.
  destruct a as [sa|sa| |sa ma ea], b as [sb|sb| |sb mb eb]; cbn;
    try reflexivity;
    try (destruct sa; reflexivity);
    try (destruct sb; reflexivity);
    try (destruct sa, sb; reflexivity).
  change (Pos.compare_cont Eq mb ma) with (mb ?= ma)%positive.
  change (Pos.compare_cont Eq ma mb) with (ma ?= mb)%positive.
  rewrite (Z.compare_antisym ea eb), (Pos.compare_antisym ma mb).
  destruct sa, sb; cbn; try reflexivity;
    destruct (ea ?= eb)%Z; cbn; try reflexivity;
    destruct (ma ?= mb)%positive; reflexivity.
Qed.

Lemma SFcompare_nan (a b : float) :
  SFcompare a b = None <-> is_nan a || is_nan b = true.
Proof.
  destruct a as [sa|sa| |sa ma ea], b as [sb|sb| |sb mb eb]; cbn;
    split; intros H; try reflexivity; try discriminate H;
    try (destruct sa; discriminate H);
    try (destruct sb; discriminate H).
Qed.

Lemma SFcompare_nan_ne (a b : float) (c : comparison) :
  Some c = SFcompare a b -> is_nan a = false /\ is_nan b = false.
Proof.
  intros H. destruct (is_nan a || is_nan b) eqn:E.
  - apply SFcompare_nan in E. congruence.
  - apply orb_false_elim in E. exact E.
Qed.

(** Two floats that compare equal are the same datum, or two zeros. *)
Lemma SFcompare_Eq_inv (a b : float) :
  SFcompare a b = Some Eq ->
  a = b \/ exists sa sb, a = S754_zero sa /\ b = S754_zero sb.
Proof.
  destruct a as [sa|sa| |sa ma ea], b as [sb|sb| |sb mb eb]; cbn;
    intros H; try discriminate H;
    try (destruct sa; discriminate H);
    try (destruct sb; discriminate H).
  - right. eauto.
  - left. destruct sa, sb; try discriminate H; reflexivity.
  - left. change (Pos.compare_cont Eq ma mb) with (ma ?= mb)%positive in H.
    destruct sa, sb; try discriminate H;
      destruct (Z.compare_spec ea eb); try discriminate H;
      destruct (Pos.compare_spec ma mb); try discriminate H;
      subst; reflexivity.
Qed.

Lemma SFcompare_zero_l (sa sb : bool) (c : float) :
  SFcompare (S754_zero sa) c = SFcompare (S754_zero sb) c.
Proof. destruct c; reflexivity. Qed.

Lemma SFcompare_zero_r (sa sb : bool) (c : float) :
  SFcompare c (S754_zero sa) = SFcompare c (S754_zero sb).
Proof. destruct c; reflexivity. Qed.

(** Comparison does not tell apart floats that compare equal. *)
Lemma SFcompare_Eq_l (a b c : float) :
  SFcompare a b = Some Eq -> SFcompare a c = SFcompare b c.
Proof.
  intros H. destruct (SFcompare_Eq_inv a b H) as [->|(sa & sb & -> & ->)];
    [reflexivity|apply SFcompare_zero_l].
Qed.

Lemma SFcompare_Eq_r (a b c : float) :
  SFcompare a b = Some Eq -> SFcompare c a = SFcompare c b.
Proof.
  intros H. destruct (SFcompare_Eq_inv a b H) as [->|(sa & sb & -> & ->)];
    [reflexivity|apply SFcompare_zero_r].
Qed.

Lemma SFcompare_refl (a : float) :
  is_nan a = false -> SFcompare a a = Some Eq.
Proof.
  destruct a as [s|s| |s m e]; cbn; intros H; try discriminate H;
    try reflexivity; destruct s; try reflexivity;
    rewrite Z.compare_refl, Pos.compare_cont_refl; reflexivity.
Qed.

Lemma SFcompare_Lt_trans (a b c : float) :
  SFcompare a b = Some Lt -> SFcompare b c = Some Lt ->
  SFcompare a c = Some Lt.
Proof.
  destruct a as [sa|sa| |sa ma ea], b as [sb|sb| |sb mb eb],
    c as [sc|sc| |sc mc ec]; cbn; intros H1 H2;
    try discriminate H1; try discriminate H2;
    try (destruct sa; try discriminate H1);
    try (destruct sb; try discriminate H1; try discriminate H2);
    try (destruct sc; try discriminate H2);
    try reflexivity.
  all: change (Pos.compare_cont Eq ma mb) with (ma ?= mb)%positive in H1.
  all: change (Pos.compare_cont Eq mb mc) with (mb ?= mc)%positive in H2.
  all: change (Pos.compare_cont Eq ma mc) with (ma ?= mc)%positive.
  all: destruct (Z.compare_spec ea eb); try discriminate H1;
    destruct (Z.compare_spec eb ec); try discriminate H2;
    destruct (Z.compare_spec ea ec); try lia; try reflexivity;
    destruct (Pos.compare_spec ma mb); try discriminate H1;
    destruct (Pos.compare_spec mb mc); try discriminate H2;
    destruct (Pos.compare_spec ma mc); try lia; reflexivity.
Qed.

(** The comparison operators in terms of [SFcompare]. *)
Lemma ltb_compare a b : a < b <-> SFcompare a b = Some Lt.
Proof.
  unfold ltb, SFltb. destruct (SFcompare a b) as [[]|]; split; congruence.
Qed.

Lemma gtb_compare a b : a > b <-> SFcompare a b = Some Gt.
Proof.
  unfold gtb, SFltb. rewrite (SFcompare_antisym a b).
  destruct (SFcompare a b) as [[]|]; cbn; split; congruence.
Qed.

Lemma eqb_compare a b : a == b <-> SFcompare a b = Some Eq.
Proof.
  unfold eqb, SFeqb. destruct (SFcompare a b) as [[]|]; split; congruence.
Qed.

Lemma leb_compare a b :
  a <= b <-> SFcompare a b = Some Lt \/ SFcompare a b = Some Eq.
Proof.
  unfold leb, SFleb. destruct (SFcompare a b) as [[]|]; split;
    intros H; try congruence; auto; destruct H; congruence.
Qed.

Lemma geb_compare a b :
  a >= b <-> SFcompare a b = Some Gt \/ SFcompare a b = Some Eq.
Proof.
  unfold geb, SFleb. rewrite (SFcompare_antisym a b).
  destruct (SFcompare a b) as [[]|]; cbn; split;
    intros H; try congruence; auto; destruct H; congruence.
Qed.

Lemma ltb_trans (a b c : float) : a < b -> b < c -> a < c.
Proof.
  rewrite !ltb_compare. apply SFcompare_Lt_trans.
Qed.

Lemma eqb_not_gtb (a b : float) : a == b -> (a >? b) = false.
Proof.
  intros H. apply eqb_compare in H.
  destruct (a >? b) eqn:E; [|reflexivity].
  apply gtb_compare in E. congruence.
Qed.

Lemma leb_refl (a : float) : is_nan a = false -> a <= a.
Proof. intros H. apply leb_compare. right. apply SFcompare_refl, H. Qed.

Lemma leb_not_nan (a b : float) :
  a <= b -> is_nan a = false /\ is_nan b = false.
Proof.
  intros H. apply leb_compare in H.
  destruct H as [H|H]; apply eq_sym, SFcompare_nan_ne in H; exact H.
Qed.

Lemma ltb_leb (a b : float) : a < b -> a <= b.
Proof. rewrite ltb_compare, leb_compare. auto. Qed.

Lemma leb_trans (a b c : float) : a <= b -> b <= c -> a <= c.
Proof.
  rewrite !leb_compare. intros [H1|H1] [H2|H2].
  - left. eapply SFcompare_Lt_trans; eassumption.
  - left. rewrite <- (SFcompare_Eq_r b c a H2). exact H1.
  - left. rewrite (SFcompare_Eq_l a b c H1). exact H2.
  - right. rewrite (SFcompare_Eq_l a b c H1). exact H2.
Qed.

Lemma ltb_leb_trans (a b c : float) : a < b -> b <= c -> a < c.
Proof.
  rewrite !ltb_compare, leb_compare. intros H1 [H2|H2].
  - eapply SFcompare_Lt_trans; eassumption.
  - rewrite <- (SFcompare_Eq_r b c a H2). exact H1.
Qed.

Lemma ltb_irrefl (a : float) : ~ a < a.
Proof.
  rewrite ltb_compare. intros H.
  pose proof (SFcompare_antisym a a) as Ha. rewrite H in Ha. discriminate Ha.
Qed.

(** Two floats, neither NaN, are in order one way or the other. *)
Lemma not_ltb_leb (a b : float) :
  is_nan a = false -> is_nan b = false -> (a <? b) = false -> b <= a.
Proof.
  intros Ha Hb H. unfold ltb, leb, SFltb, SFleb in *.
  rewrite (SFcompare_antisym a b).
  destruct (SFcompare a b) as [[]|] eqn:E; try reflexivity;
    try discriminate H.
  apply SFcompare_nan in E. rewrite Ha, Hb in E. discriminate E.
Qed.

Lemma leb_ltb_trans (a b c : float) : a <= b -> b < c -> a < c.
Proof.
  rewrite !ltb_compare, leb_compare. intros [H1|H1] H2.
  - eapply SFcompare_Lt_trans; eassumption.
  - rewrite (SFcompare_Eq_l a b c H1). exact H2.
Qed.

Lemma not_leb_ltb (a b : float) :
  is_nan a = false -> is_nan b = false -> (a <=? b) = false -> b < a.
Proof.
  intros Ha Hb H. unfold ltb, leb, SFltb, SFleb in *.
  rewrite (SFcompare_antisym a b).
  destruct (SFcompare a b) as [[]|] eqn:E; try reflexivity;
    try discriminate H.
  apply SFcompare_nan in E. rewrite Ha, Hb in E. discriminate E.
Qed.

Lemma ltb_not_nan (a b : float) :
  a < b -> is_nan a = false /\ is_nan b = false.
Proof. intros H. apply leb_not_nan, ltb_leb, H. Qed.

End FloatOrder.

(** ** Clamping *)

Section Clamp.
Local Open Scope f32_scope.

Lemma is_nan_inv a : is_nan a = true -> a = nan.
Proof. destruct a; cbn; intros H; try discriminate H; reflexivity. Qed.

(** Swapping the arguments of [fminf] and [fmaxf] changes nothing,
    except on two arguments that compare equal, where each returns its
    first argument. *)
Lemma fminf_fmaxf_swap (a b : float) :
  (fminf a b = fminf b a /\ fmaxf a b = fmaxf b a)
  \/ (SFcompare a b = Some Eq
      /\ fminf a b = a /\ fmaxf a b = a /\ fminf b a = b /\ fmaxf b a = b).
Proof.
  unfold fminf, fmaxf, geb, leb, SFleb.
  rewrite (SFcompare_antisym a b).
  destruct (SFcompare a b) as [[]|] eqn:E; cbn.
  - right. auto.
  - left. apply eq_sym, SFcompare_nan_ne in E as [-> ->]. auto.
  - left. apply eq_sym, SFcompare_nan_ne in E as [-> ->]. auto.
  - left. apply SFcompare_nan in E.
    destruct (is_nan a) eqn:Ea, (is_nan b) eqn:Eb; try discriminate E; cbn;
      repeat match goal with
             | H : is_nan _ = true |- _ => apply is_nan_inv in H; subst
             end; auto.
Qed.

(** After the reordering the bounds are ordered, whatever the order
    of the arguments (NaN bounds apart). *)
Lemma fminf_le_fmaxf (a b : float) :
  is_nan a = false -> is_nan b = false -> fminf a b <= fmaxf a b.
Proof.
  intros Ha Hb. unfold fminf, fmaxf, geb, leb, SFleb.
  rewrite (SFcompare_antisym a b), Hb, !orb_false_r.
  destruct (SFcompare a b) as [[]|] eqn:E; cbn.
  - now rewrite (SFcompare_refl a Ha).
  - now rewrite E.
  - now rewrite (SFcompare_antisym a b), E.
  - apply SFcompare_nan in E. rewrite Ha, Hb in E. discriminate E.
Qed.

Lemma clamp2f_swap_cases (x a b : float) :
  clamp2f x a b = clamp2f x b a
  \/ (SFcompare a b = Some Eq /\ F32.eqb (clamp2f x a b) (clamp2f x b a) = true).
Proof.
  unfold clamp2f.
  destruct (fminf_fmaxf_swap a b) as [[-> ->]|(E & -> & -> & -> & ->)];
    [left; reflexivity|].
  unfold clampf, ltb, gtb, SFltb.
  rewrite <- (SFcompare_Eq_r a b x E), <- (SFcompare_Eq_l a b x E).
  destruct (SFcompare x a) as [[]|] eqn:Exa;
    destruct (SFcompare a x) as [[]|] eqn:Eax;
    try (left; reflexivity);
    right; (split; [exact E|]); apply eqb_compare; exact E.
Qed.

(** C10. [clampf] and [clampi] return [min] when [x < min], otherwise
    [max] when [x > max], otherwise [x], whatever the order of [min] and
    [max]: with [min > max] every [x < min] still gives [min]
    ([clampf(5, 10, 0) == 10]); the result is one of the arguments. *)
Theorem clamp_three_way (x min max : float) (xi mini maxi : Z) :
  ((x < min -> clampf x min max = min)
   /\ (~ x < min -> x > max -> clampf x min max = max)
   /\ (~ x < min -> ~ x > max -> clampf x min max = x)
   /\ (clampf x min max = min \/ clampf x min max = max
       \/ clampf x min max = x)
   /\ clampf (F 5) (F 10) (F 0) = F 10)
  /\ ((xi < mini -> clampi xi mini maxi = mini)
      /\ (~ xi < mini -> xi > maxi -> clampi xi mini maxi = maxi)
      /\ (~ xi < mini -> ~ xi > maxi -> clampi xi mini maxi = xi)
      /\ (clampi xi mini maxi = mini \/ clampi xi mini maxi = maxi
          \/ clampi xi mini maxi = xi)
      /\ clampi 5 10 0 = 10)%Z.
Proof.
  split.
  - unfold clampf.
    destruct (x <? min) eqn:E1; [|destruct (x >? max) eqn:E2];
      repeat split; intros; auto; congruence.
  - unfold clampi.
    destruct (Z.ltb_spec xi mini); [|destruct (Z.gtb_spec xi maxi)];
      repeat split; intros; auto; lia.
Qed.

Lemma clamp_three_way_witness :
  clampf (F 7) (F 10) (F 0) = F 10 /\ clampi 7 10 0 = 10%Z.
Proof.
  pose proof (clamp_three_way (F 7) (F 10) (F 0) 7 10 0)
    as ((Hf & _) & (Hi & _)).
  split; [apply Hf; reflexivity|apply Hi; lia].
Defined.

End Clamp.

(** ** Sign *)

Section SignFacts.
Local Open Scope f32_scope.

Lemma sgnf_signbit (ns : bool) (x : float) :
  sgnf ns x = if signbit ns x then - one else one.
Proof. unfold sgnf. cbn. destruct (signbit ns x); reflexivity. Qed.

(** A float above zero has a clear sign bit, one below zero a set one. *)
Lemma signbit_pos (ns : bool) (x : float) : zero < x -> signbit ns x = false.
Proof.
  destruct x as [s|s| |s m e]; cbn; intros H; try discriminate H;
    destruct s; try discriminate H; reflexivity.
Qed.

Lemma signbit_neg (ns : bool) (x : float) : x < zero -> signbit ns x = true.
Proof.
  destruct x as [s|s| |s m e]; cbn; intros H; try discriminate H;
    destruct s; try discriminate H; reflexivity.
Qed.

(** C8. [sgnf(x)] is [+1.0] for a positive [x] and for [+0.0], and
    [-1.0] for a negative [x] and for [-0.0]: it reads the sign bit, so
    the two zeros are told apart; [sgnf(-0.0) == -1.0] and
    [sgnf(0.0) == 1.0]. *)
Theorem sgnf_signed_zero (ns : bool) (x : float) :
  (zero < x \/ x = S754_zero false -> sgnf ns x = F 1)
  /\ (x < zero \/ x = S754_zero true -> sgnf ns x = F (-1))
  /\ sgnf ns (S754_zero true) == F (-1)
  /\ sgnf ns (S754_zero false) == F 1.
Proof.
  rewrite !sgnf_signbit. repeat split.
  - intros [H| ->]; [rewrite (signbit_pos ns x H)|]; reflexivity.
  - intros [H| ->]; [rewrite (signbit_neg ns x H)|]; reflexivity.
Qed.

Lemma sgnf_signed_zero_witness :
  sgnf false (F 3) = F 1 /\ sgnf false (S754_infinity true) = F (-1)
  /\ sgnf true (S754_zero false) = F 1.
Proof.
  pose proof (sgnf_signed_zero false (F 3)) as (H1 & _).
  pose proof (sgnf_signed_zero false (S754_infinity true)) as (_ & H2 & _).
  pose proof (sgnf_signed_zero true (S754_zero false)) as (H3 & _).
  split; [apply H1; left; reflexivity|].
  split; [apply H2; left; reflexivity|apply H3; right; reflexivity].
Defined.

End SignFacts.

(** ** Complex multiplication *)

Section Complex.
Local Open Scope f32_scope.

(** The body of [cmultf] leaves the two products in [cr] and [ci] when
    these are two cells, and touches no other cell. *)
Lemma cmultf_writes (cr ci : loc) (ar ai br bi : float) (st : store) :
  cr ≠ ci ->
  cmultf cr ci ar ai br bi st !! cr = Some (ar * br - ai * bi)
  /\ cmultf cr ci ar ai br bi st !! ci = Some (ar * bi + ai * br)
  /\ (forall l : loc, l ≠ cr -> l ≠ ci ->
                      cmultf cr ci ar ai br bi st !! l = st !! l).
Proof.
  intros Hne. unfold cmultf. cbn zeta. repeat split.
  - rewrite lookup_insert_ne by congruence. apply lookup_insert_eq.
  - apply lookup_insert_eq.
  - intros l H1 H2. rewrite !lookup_insert_ne by congruence. reflexivity.
Qed.

(** C9. [cmultf] leaves [(ar*br - ai*bi, ar*bi + ai*br)] in its two
    output cells, [(3,4)*(1,2) = (-5,10)]; and a call whose outputs are
    the cells of its operands ([cmultf(&ar, &ai, ar, ai, br, bi)]) leaves
    there the values that a call with two other output cells leaves in
    those: the operands are read before the first write. *)
Theorem cmultf_alias_safe (st : store) (par pai pbr pbi fr fi : loc)
    (ar ai br bi : float) :
  par ≠ pai -> fr ≠ fi ->
  st !! par = Some ar -> st !! pai = Some ai ->
  st !! pbr = Some br -> st !! pbi = Some bi ->
  exists st_in st_fr : store,
    cmultf_call par pai par pai pbr pbi st = Some st_in
    /\ cmultf_call fr fi par pai pbr pbi st = Some st_fr
    /\ st_in !! par = Some (ar * br - ai * bi)
    /\ st_in !! pai = Some (ar * bi + ai * br)
    /\ st_fr !! fr = st_in !! par
    /\ st_fr !! fi = st_in !! pai
    /\ F 3 * F 1 - F 4 * F 2 = F (-5)
    /\ F 3 * F 2 + F 4 * F 1 = F 10.
Proof.
  intros Hp Hf Har Hai Hbr Hbi.
  unfold cmultf_call. rewrite Har, Hai, Hbr, Hbi. cbn.
  destruct (cmultf_writes par pai ar ai br bi st Hp) as (H1 & H2 & _).
  destruct (cmultf_writes fr fi ar ai br bi st Hf) as (H3 & H4 & _).
  do 2 eexists. split; [reflexivity|]. split; [reflexivity|].
  rewrite H1, H2, H3, H4. repeat split; reflexivity.
Qed.

Lemma cmultf_alias_safe_witness :
  exists st_in st_fr : store,
    let st : store := {[ 1%positive := F 3; 2%positive := F 4;
                         3%positive := F 1; 4%positive := F 2 ]} in
    cmultf_call 1 2 1 2 3 4 st = Some st_in
    /\ cmultf_call 5 6 1 2 3 4 st = Some st_fr
    /\ st_in !! 1%positive = Some (F (-5))
    /\ st_in !! 2%positive = Some (F 10)
    /\ st_fr !! 5%positive = Some (F (-5))
    /\ st_fr !! 6%positive = Some (F 10).
Proof.
  destruct (cmultf_alias_safe
              {[ 1%positive := F 3; 2%positive := F 4;
                 3%positive := F 1; 4%positive := F 2 ]}
              1%positive 2%positive 3%positive 4%positive 5%positive 6%positive
              (F 3) (F 4) (F 1) (F 2))
    as (st_in & st_fr & H1 & H2 & H3 & H4 & H5 & H6 & H7 & H8);
    try (vm_compute; congruence); try reflexivity.
  exists st_in, st_fr. cbn zeta.
  rewrite H5, H6, H3, H4, H7, H8.
  repeat split; assumption || reflexivity.
Defined.

End Complex.

(** ** Array interpolation *)

Section Interp.
Local Open Scope f32_scope.

Lemma digits2_pos_bound (m : positive) :
  (Zpos m < 2 ^ Zpos (digits2_pos m))%Z.
Proof.
  induction m as [m IH|m IH|]; cbn [digits2_pos];
    rewrite ?Pos2Z.inj_succ, ?Z.pow_succ_r by lia; lia.
Qed.

(** The mantissa of a binary32 datum has at most 24 bits. *)
Lemma valid_mantissa_bound s m e :
  valid (S754_finite s m e) = true -> (Zpos m < 2 ^ 24)%Z.
Proof.
  unfold valid, valid_binary, bounded, canonical_mantissa, fexp, emin,
    prec, emax.
  intros H. apply andb_prop in H as [H _]. apply Z.eqb_eq in H.
  pose proof (digits2_pos_bound m) as Hm.
  assert (Hd : (Zpos (digits2_pos m) <= 24)%Z) by lia.
  eapply Z.lt_le_trans; [exact Hm|].
  apply Z.pow_le_mono_r; lia.
Qed.

(** On a float that is not below zero, truncation is the floor. *)
Lemma trunc_floor (x : float) (i : Z) :
  zero <= x -> floor x = Some i -> trunc x = Some i /\ (0 <= i)%Z.
Proof.
  destruct x as [s|s| |s m e]; cbn; intros Hx Hf; try discriminate Hf.
  - inversion Hf. split; [reflexivity|lia].
  - destruct s; [discriminate Hx|]. inversion Hf as [Hi]. clear Hf.
    destruct e as [|k|k].
    + rewrite Z.shiftl_0_r. split; [f_equal; lia|lia].
    + rewrite Z.shiftl_mul_pow2 by lia.
      split; [reflexivity|]. pose proof (Z.pow_pos_nonneg 2 (Zpos k)). lia.
    + rewrite Z.shiftr_div_pow2 by lia.
      split; [reflexivity|]. apply Z.div_pos; [lia|].
      apply Z.pow_pos_nonneg; lia.
Qed.

(** No binary32 datum has [INT_MAX] for floor: past [2^24] the floats
    are even integers. *)
Lemma floor_below_int_max (x : float) (i : Z) :
  valid x = true -> floor x = Some i ->
  (i <= Int.int_max -> i + 1 <= Int.int_max)%Z.
Proof.
  unfold Int.int_max.
  destruct x as [s|s| |s m e]; cbn [floor]; intros Hv Hf;
    try discriminate Hf.
  - inversion Hf. lia.
  - inversion Hf as [Hi]. clear Hf.
    pose proof (valid_mantissa_bound s m e Hv) as Hm.
    assert (Hn : ((if s then Z.neg m else Z.pos m) < 2 ^ 24)%Z)
      by (destruct s; lia).
    destruct e as [|k|k].
    + lia.
    + replace (2 ^ Z.pos k)%Z with (2 * 2 ^ (Z.pos k - 1))%Z
        by (rewrite <- Z.pow_succ_r by lia; f_equal; lia).
      lia.
    + pose proof (Z.pow_pos_nonneg 2 (Z.pos k) ltac:(lia) ltac:(lia)).
      assert ((if s then Z.neg m else Z.pos m) / 2 ^ Z.pos k < 2 ^ 24)%Z.
      { apply Z.div_lt_upper_bound; [lia|]. nia. }
      lia.
Qed.

(** Whatever the array, the conversion of [2^31] to [int] is undefined
    and [interpf] has no result there. *)
Lemma interpf_2p31 (p : list float) : interpf p (F (2 ^ 31)) = None.
Proof. reflexivity. Qed.

(** C3, as stated, fails: at [x = 2^31] and an array of [2^31 + 2]
    elements the precondition holds and the conversion [int xi = x]
    overflows. *)
Lemma interpf_overflow_counterexample :
  let x := F (2 ^ 31) in
  let p := replicate (Z.to_nat (2 ^ 31 + 2)) zero in
  valid x = true
  /\ zero <= x
  /\ floor x = Some (2 ^ 31)%Z
  /\ (2 ^ 31 + 2 <= Z.of_nat (length p))%Z
  /\ interpf p x = None.
Proof.
  cbv zeta. split; [reflexivity|]. split; [reflexivity|].
  split; [reflexivity|]. split; [|apply interpf_2p31].
  rewrite length_replicate, Z2Nat.id; lia.
Qed.

(** C3, amended. For a binary32 [x] that is not below zero and whose
    floor [i] is at most [INT_MAX], and an array of at least [i + 2]
    elements, [interpf] reads the elements [i] and [i + 1], both inside
    the array, and returns [crossf(p[i], p[i+1], x - i)]. *)
Theorem interpf_in_bounds (p : list float) (x : float) (i : Z) :
  valid x = true ->
  zero <= x ->
  floor x = Some i ->
  (i <= Int.int_max)%Z ->
  (i + 2 <= Z.of_nat (length p))%Z ->
  exists a b : float,
    index p i = Some a
    /\ index p (i + 1) = Some b
    /\ interpf p x = Some (crossf a b (x - of_int i)).
Proof.
  intros Hv Hx Hf Hmax Hlen.
  destruct (trunc_floor x i Hx Hf) as [Ht Hi].
  pose proof (floor_below_int_max x i Hv Hf Hmax) as Hmax1.
  assert (Ha : is_Some (p !! Z.to_nat i)) by (apply lookup_lt_is_Some; lia).
  assert (Hb : is_Some (p !! Z.to_nat (i + 1)))
    by (apply lookup_lt_is_Some; lia).
  destruct Ha as [a Ha], Hb as [b Hb].
  assert (Hia : index p i = Some a).
  { unfold index. destruct (Z.ltb_spec i 0); [lia|exact Ha]. }
  assert (Hib : index p (i + 1) = Some b).
  { unfold index. destruct (Z.ltb_spec (i + 1) 0); [lia|exact Hb]. }
  exists a, b. split; [exact Hia|]. split; [exact Hib|].
  unfold interpf, to_int. rewrite Ht. cbn.
  destruct (Z.leb_spec Int.int_min i);
    [|unfold Int.int_min in *; lia].
  destruct (Z.leb_spec i Int.int_max); [|lia]. cbn.
  rewrite wrap_id
    by (unfold Int.in_range, Int.int_min, Int.int_max in *; lia).
  rewrite Hia. cbn. rewrite Hib. reflexivity.
Qed.

Lemma interpf_in_bounds_witness :
  exists a b : float,
    index [F 10; F 20; F 30; F 40] 2 = Some a
    /\ index [F 10; F 20; F 30; F 40] (2 + 1) = Some b
    /\ interpf [F 10; F 20; F 30; F 40] (F 5 / F 2)
       = Some (crossf a b (F 5 / F 2 - of_int 2)).
Proof.
  apply (interpf_in_bounds [F 10; F 20; F 30; F 40] (F 5 / F 2) 2);
    try reflexivity; unfold Int.int_max; cbn; lia.
Defined.

End Interp.

(** ** Rectangles *)

Section RectFacts.
Local Open Scope f32_scope.

Lemma fmaxf_ltb (a b c : float) :
  is_nan a = false -> is_nan b = false ->
  fmaxf a b < c <-> a < c /\ b < c.
Proof.
  intros Ha Hb. unfold fmaxf. rewrite Hb, orb_false_r.
  destruct (a >=? b) eqn:E.
  - split; [|tauto]. intros H. split; [exact H|].
    apply leb_ltb_trans with a; assumption.
  - apply not_leb_ltb in E; [|assumption|assumption].
    split; [|tauto]. intros H. split; [|exact H].
    apply ltb_trans with b; assumption.
Qed.

Lemma fminf_gtb (a b c : float) :
  is_nan a = false -> is_nan b = false ->
  c < fminf a b <-> c < a /\ c < b.
Proof.
  intros Ha Hb. unfold fminf. rewrite Hb, orb_false_r.
  destruct (a <=? b) eqn:E.
  - split; [|tauto]. intros H. split; [exact H|].
    apply ltb_leb_trans with a; assumption.
  - apply not_leb_ltb in E; [|assumption|assumption].
    split; [|tauto]. intros H. split; [|exact H].
    apply ltb_trans with b; assumption.
Qed.

(** On an axis where both rectangles have a positive extent, the test
    of [intersects] is the overlap of the two open intervals. *)
Lemma axis_open_overlap (a0 a1 b0 b1 : float) :
  a0 < a1 -> b0 < b1 ->
  (a1 > b0 /\ b1 > a0) <-> open_overlap a0 a1 b0 b1.
Proof.
  intros Ha Hb. unfold open_overlap, gtb. fold (ltb b0 a1) (ltb a0 b1).
  destruct (ltb_not_nan _ _ Ha) as [Ha0 Ha1].
  destruct (ltb_not_nan _ _ Hb) as [Hb0 Hb1].
  rewrite fminf_gtb, !fmaxf_ltb by assumption. tauto.
Qed.

Lemma intersects_open_overlap (a b : Rect) :
  x (pos a) < x (pos a) + x (size a) ->
  y (pos a) < y (pos a) + y (size a) ->
  x (pos b) < x (pos b) + x (size b) ->
  y (pos b) < y (pos b) + y (size b) ->
  intersects a b = true <->
  open_overlap (x (pos a)) (x (pos a) + x (size a))
               (x (pos b)) (x (pos b) + x (size b))
  /\ open_overlap (y (pos a)) (y (pos a) + y (size a))
                  (y (pos b)) (y (pos b) + y (size b)).
Proof.
  intros Hax Hay Hbx Hby.
  rewrite <- !axis_open_overlap by assumption.
  unfold intersects. rewrite !andb_true_iff. reflexivity.
Qed.

(** C4, as stated, fails on a rectangle without extent: [(5,5,0,0)] has
    an empty open interval on both axes, no point lies strictly inside
    it, and yet [(0,0,10,10)] intersects it. *)
Lemma intersects_empty_interval_counterexample :
  let a := R 0 0 10 10 in
  let b := R 5 5 0 0 in
  intersects a b = true
  /\ ~ open_overlap (x (pos a)) (x (pos a) + x (size a))
                    (x (pos b)) (x (pos b) + x (size b))
  /\ (forall v : Vec, ~ inside_open b v).
Proof.
  cbv zeta. split; [reflexivity|]. split; [discriminate|].
  intros v [[H1 H2] _]. apply (ltb_irrefl (x (pos (R 5 5 0 0)))).
  apply ltb_trans with (x v); assumption.
Qed.

(** C4, amended. For two rectangles of positive extent on both axes
    ([pos < pos + size]), [a.intersects(b)] holds exactly when their open
    intervals overlap on both axes.  For all rectangles, also those of
    zero or negative extent, it is the test that on both axes the far edge
    of each is strictly beyond the near edge of the other; hence two
    rectangles with an edge in common do not intersect, two rectangles
    with a point strictly inside both do; [(0,0,10,10)] and
    [(10,0,10,10)] do not intersect, [(0,0,10,10)] and [(5,0,10,10)] do. *)
Theorem intersects_open_intervals (a b : Rect) :
  (x (pos a) < x (pos a) + x (size a) ->
   y (pos a) < y (pos a) + y (size a) ->
   x (pos b) < x (pos b) + x (size b) ->
   y (pos b) < y (pos b) + y (size b) ->
   intersects a b = true <->
   open_overlap (x (pos a)) (x (pos a) + x (size a))
                (x (pos b)) (x (pos b) + x (size b))
   /\ open_overlap (y (pos a)) (y (pos a) + y (size a))
                   (y (pos b)) (y (pos b) + y (size b)))
  /\ (intersects a b = true <->
      (x (pos a) + x (size a) > x (pos b)
       /\ x (pos b) + x (size b) > x (pos a))
      /\ (y (pos a) + y (size a) > y (pos b)
          /\ y (pos b) + y (size b) > y (pos a)))
  /\ (x (pos a) + x (size a) == x (pos b)
      \/ x (pos b) + x (size b) == x (pos a)
      \/ y (pos a) + y (size a) == y (pos b)
      \/ y (pos b) + y (size b) == y (pos a) ->
      intersects a b = false)
  /\ (forall v : Vec, inside_open a v -> inside_open b v ->
                      intersects a b = true)
  /\ intersects (R 0 0 10 10) (R 10 0 10 10) = false
  /\ intersects (R 0 0 10 10) (R 5 0 10 10) = true.
Proof.
  assert (Hiff : intersects a b = true <->
     (x (pos a) + x (size a) > x (pos b)
      /\ x (pos b) + x (size b) > x (pos a))
     /\ (y (pos a) + y (size a) > y (pos b)
         /\ y (pos b) + y (size b) > y (pos a))).
  { unfold intersects. rewrite !andb_true_iff. reflexivity. }
  split; [apply intersects_open_overlap|]. split; [exact Hiff|].
  split; [|split; [|split; reflexivity]].
  - intros H. unfold intersects.
    destruct H as [H|[H|[H|H]]]; rewrite (eqb_not_gtb _ _ H);
      rewrite ?andb_false_r; reflexivity.
  - intros v [[Hax0 Hax1] [Hay0 Hay1]] [[Hbx0 Hbx1] [Hby0 Hby1]].
    apply Hiff. unfold gtb. fold ltb.
    repeat split; eapply ltb_trans; eassumption.
Qed.

Lemma intersects_open_intervals_witness :
  intersects (R 0 0 10 10) (R 5 0 10 10) = true
  /\ intersects (R 0 0 10 10) (R 10 0 10 10) = false.
Proof.
  pose proof (intersects_open_intervals (R 0 0 10 10) (R 5 0 10 10))
    as (Hopen & _).
  pose proof (intersects_open_intervals (R 0 0 10 10) (R 10 0 10 10))
    as (Hopen' & _).
  specialize (Hopen eq_refl eq_refl eq_refl eq_refl).
  specialize (Hopen' eq_refl eq_refl eq_refl eq_refl).
  split; [apply Hopen; split; reflexivity|].
  destruct (intersects (R 0 0 10 10) (R 10 0 10 10)) eqn:E; [|reflexivity].
  destruct Hopen' as [Hto _]. destruct (Hto eq_refl) as [Hx _].
  discriminate Hx.
Defined.

(** The ordered clamp on ordered bounds lands between them. *)
Lemma clampf_in_range (v lo hi : float) :
  is_nan v = false -> lo <= hi ->
  lo <= clampf v lo hi /\ clampf v lo hi <= hi.
Proof.
  intros Hv Hle. unfold clampf.
  pose proof Hle as Hle'. apply leb_compare in Hle'.
  assert (Hnn : is_nan lo = false /\ is_nan hi = false)
    by (destruct Hle' as [E|E]; apply eq_sym, SFcompare_nan_ne in E; exact E).
  destruct Hnn as [Hlo Hhi].
  destruct (v <? lo) eqn:E1.
  - split; [apply leb_compare; right; apply SFcompare_refl, Hlo|exact Hle].
  - destruct (v >? hi) eqn:E2.
    + split; [exact Hle|apply leb_compare; right; apply SFcompare_refl, Hhi].
    + clear Hle Hle'. unfold ltb, gtb, leb, SFltb, SFleb in *.
      rewrite (SFcompare_antisym v lo).
      destruct (SFcompare v lo) as [[]|] eqn:C1; try discriminate E1;
        [| |apply SFcompare_nan in C1; rewrite Hv, Hlo in C1; discriminate C1];
        (rewrite (SFcompare_antisym v hi) in E2;
         destruct (SFcompare v hi) as [[]|] eqn:C2; try discriminate E2;
         [| |apply SFcompare_nan in C2; rewrite Hv, Hhi in C2; discriminate C2];
         split; reflexivity).
Qed.



End RectFacts.

(** ** The sign of a rounded difference *)

Section Rounding.
Local Open Scope Z_scope.

Lemma shr_1_nonneg (mrs : shr_record) :
  0 <= shr_m mrs -> 0 <= shr_m (shr_1 mrs).
Proof.
  destruct mrs as [m r s]. cbn.
  destruct m as [|[p|p|]|[p|p|]]; cbn; lia.
Qed.

Lemma iter_shr_1_nonneg (p : positive) : forall mrs : shr_record,
  0 <= shr_m mrs -> 0 <= shr_m (SpecFloat.iter_pos shr_1 p mrs).
Proof.
  induction p as [p IH|p IH|]; intros mrs H; cbn.
  - apply IH, IH, shr_1_nonneg, H.
  - apply IH, IH, H.
  - apply shr_1_nonneg, H.
Qed.

Lemma shr_fexp_nonneg (m e : Z) (l : location) :
  0 <= m -> 0 <= shr_m (fst (shr_fexp prec emax m e l)).
Proof.
  intros H. unfold shr_fexp, shr.
  assert (H0 : 0 <= shr_m (shr_record_of_loc m l))
    by (destruct l as [|[]]; exact H).
  destruct (fexp prec emax (Zdigits2 m + e) - e); cbn [fst];
    [exact H0|apply iter_shr_1_nonneg, H0|exact H0].
Qed.

Lemma round_nearest_even_nonneg (m : Z) (l : location) :
  0 <= m -> 0 <= round_nearest_even m l.
Proof.
  intros H. destruct l as [|[]]; cbn; try lia.
  destruct (Z.even m); lia.
Qed.



Lemma iter_xO_pow2 (m d : positive) :
  Zpos (Pos.iter xO m d) = Zpos m * 2 ^ Zpos d.
Proof.
  induction d as [|d IH] using Pos.peano_ind.
  - cbn. lia.
  - rewrite Pos.iter_succ, Pos2Z.inj_xO, IH, Pos2Z.inj_succ,
      Z.pow_succ_r by lia. lia.
Qed.

(** Alignment to a smaller exponent multiplies the mantissa by the
    matching power of two. *)
Lemma shl_align_value (m : positive) (e e' : Z) :
  e' <= e -> Zpos (fst (shl_align m e e')) = Zpos m * 2 ^ (e - e').
Proof.
  intros H. unfold shl_align.
  destruct (e' - e) as [|d|d] eqn:E; cbn [fst].
  - replace (e - e') with 0 by lia. lia.
  - lia.
  - rewrite iter_xO_pow2. f_equal. f_equal. lia.
Qed.

Lemma digits2_pos_lower (m : positive) :
  2 ^ (Zpos (digits2_pos m) - 1) <= Zpos m.
Proof.
  induction m as [m IH|m IH|]; cbn [digits2_pos];
    rewrite ?Pos2Z.inj_succ;
    try (replace (Z.succ (Zpos (digits2_pos m)) - 1)
           with (Z.succ (Zpos (digits2_pos m) - 1)) by lia;
         rewrite Z.pow_succ_r by lia);
    cbn; lia.
Qed.

(** Among binary32 data the float with the larger exponent has the
    larger magnitude. *)
Lemma valid_exponent_order (s s' : bool) (m m' : positive) (e e' : Z) :
  valid (S754_finite s m e) = true ->
  valid (S754_finite s' m' e') = true ->
  e < e' -> Zpos m < Zpos m' * 2 ^ (e' - e).
Proof.
  intros Hv Hv' Hlt.
  pose proof (valid_mantissa_bound s m e Hv) as Hm.
  unfold valid, valid_binary, bounded, canonical_mantissa, fexp, emin,
    prec, emax in Hv, Hv'.
  apply andb_prop in Hv as [Hv _]. apply Z.eqb_eq in Hv.
  apply andb_prop in Hv' as [Hv' _]. apply Z.eqb_eq in Hv'.
  assert (Hd : Zpos (digits2_pos m') = 24) by lia.
  pose proof (digits2_pos_lower m') as Hl. rewrite Hd in Hl.
  change (2 ^ (24 - 1)) with (2 ^ 23) in Hl.
  assert (H2 : 2 ^ 1 <= 2 ^ (e' - e)) by (apply Z.pow_le_mono_r; lia).
  change (2 ^ 1) with 2 in H2.
  change (2 ^ 24) with (2 * 2 ^ 23) in Hm.
  nia.
Qed.


End Rounding.

(** ** Clamping a rectangle to a bound *)

Section RectClamp.
Local Open Scope f32_scope.


(** The larger of two ordered bounds compares equal to the second. *)
Lemma fmaxf_ordered (lo hi : float) :
  lo <= hi ->
  fminf lo hi = lo
  /\ (fmaxf lo hi = lo \/ fmaxf lo hi = hi)
  /\ fmaxf lo hi <= hi /\ hi <= fmaxf lo hi.
Proof.
  intros H. destruct (leb_not_nan _ _ H) as [Hlo Hhi].
  unfold fminf, fmaxf. rewrite H, Hhi, orb_false_r. cbn.
  destruct (lo >=? hi) eqn:E.
  - repeat split; auto.
  - repeat split; auto; apply leb_refl, Hhi.
Qed.


End RectClamp.

(** * Further properties of the header *)

(** ** Integer helpers *)

Section IntegerFacts.
Local Open Scope Z_scope.

(** X1. On ordered bounds [clampi] lands in [[min, max]], leaves a value
    of that interval alone, is idempotent, and is [maxi] of [min] and the
    [mini] of [x] and [max]. *)
Theorem clampi_ordered (v lo hi : Z) :
  lo <= hi ->
  lo <= clampi v lo hi <= hi
  /\ (lo <= v <= hi -> clampi v lo hi = v)
  /\ clampi (clampi v lo hi) lo hi = clampi v lo hi
  /\ clampi v lo hi = maxi lo (mini v hi).
Proof.
  intros H. unfold clampi, maxi, mini.
  repeat match goal with
         | |- context [?a <? ?b] => destruct (Z.ltb_spec a b)
         | |- context [?a >? ?b] => destruct (Z.gtb_spec a b)
         end; repeat split; intros; lia.
Qed.

Lemma clampi_ordered_witness :
  0 <= clampi 11 0 10 <= 10
  /\ (0 <= 11 <= 10 -> clampi 11 0 10 = 11)
  /\ clampi (clampi 11 0 10) 0 10 = clampi 11 0 10
  /\ clampi 11 0 10 = maxi 0 (mini 11 10).
Proof. apply (clampi_ordered 11 0 10). lia. Defined.

(** X2. [absi] is the absolute value on every int but [INT_MIN]; there,
    and only there, the negation [-a] does not fit in an int and [absi]
    has no defined result. *)
Theorem absi_abs (a : Z) :
  Int.in_range a ->
  (a <> Int.int_min ->
   absi a = Some (Z.abs a) /\ 0 <= Z.abs a <= Int.int_max)
  /\ (absi a = None <-> a = Int.int_min).
Proof.
  unfold Int.in_range, absi, neg_checked. intros Ha.
  destruct (Z.geb_spec a 0) as [Hge|Hlt].
  - split; [intros _; split; [f_equal|]; lia|].
    split; [discriminate|]. unfold Int.int_min. lia.
  - destruct (Z.leb_spec Int.int_min (- a)), (Z.leb_spec (- a) Int.int_max);
      cbn [andb]; unfold Int.int_min, Int.int_max in *.
    + split; [intros _; split; [f_equal|]; lia|].
      split; [discriminate|lia].
    + split; [intros Hne; lia|]. split; [lia|reflexivity].
    + lia.
    + lia.
Qed.

Lemma absi_abs_witness :
  (-5 <> Int.int_min ->
   absi (-5) = Some (Z.abs (-5)) /\ 0 <= Z.abs (-5) <= Int.int_max)
  /\ (absi (-5) = None <-> -5 = Int.int_min).
Proof.
  apply (absi_abs (-5)). unfold Int.in_range, Int.int_min, Int.int_max. lia.
Defined.

Lemma pow2_land_pred (k : Z) : 0 <= k -> Z.land (2 ^ k) (2 ^ k - 1) = 0.
Proof.
  intros Hk. replace (2 ^ k - 1) with (Z.ones k)
    by (rewrite Z.ones_equiv; lia).
  rewrite Z.land_ones by lia. apply Z.mod_same.
  pose proof (Z.pow_pos_nonneg 2 k). lia.
Qed.

(** A positive number that shares no bit with its predecessor is the
    power of two of its top bit. *)
Lemma land_pred_pow2 (n : Z) :
  0 < n -> Z.land n (n - 1) = 0 -> n = 2 ^ Z.log2 n.
Proof.
  intros Hn Hl. destruct (Z.log2_spec n Hn) as [Hlo Hhi].
  destruct (Z.eq_dec n (2 ^ Z.log2 n)) as [|Hne]; [assumption|exfalso].
  pose proof (Z.log2_nonneg n) as Hk.
  assert (Hp : 0 < n - 1)
    by (pose proof (Z.pow_pos_nonneg 2 (Z.log2 n)); lia).
  assert (Hlog : Z.log2 (n - 1) = Z.log2 n)
    by (apply Z.log2_unique; [assumption|lia]).
  pose proof (Z.bit_log2 n Hn) as B1.
  pose proof (Z.bit_log2 (n - 1) Hp) as B2. rewrite Hlog in B2.
  assert (B : Z.testbit (Z.land n (n - 1)) (Z.log2 n) = true)
    by (rewrite Z.land_spec, B1, B2; reflexivity).
  rewrite Hl, Z.bits_0 in B. discriminate B.
Qed.

(** X3. [ispow2i] holds of an int exactly when it is one of the powers
    of two [2^0 .. 2^30]; zero and the negative ints are rejected. *)
Theorem ispow2i_iff (n : Z) :
  Int.in_range n ->
  ispow2i n = true <-> exists k, 0 <= k < 31 /\ n = 2 ^ k.
Proof.
  unfold Int.in_range, Int.int_min, Int.int_max, ispow2i. intros Hr.
  rewrite andb_true_iff, Z.gtb_ltb, Z.ltb_lt, Z.eqb_eq. split.
  - intros [Hn Hl].
    rewrite wrap_id in Hl
      by (unfold Int.in_range, Int.int_min, Int.int_max; lia).
    exists (Z.log2 n). split; [|apply land_pred_pow2; assumption].
    split; [apply Z.log2_nonneg|]. apply Z.log2_lt_pow2; lia.
  - intros (k & Hk & ->).
    pose proof (Z.pow_pos_nonneg 2 k ltac:(lia) ltac:(lia)) as Hp.
    split; [exact Hp|].
    rewrite wrap_id
      by (unfold Int.in_range, Int.int_min, Int.int_max; lia).
    apply pow2_land_pred. lia.
Qed.

Lemma ispow2i_iff_witness :
  ispow2i 1024 = true <-> exists k, 0 <= k < 31 /\ 1024 = 2 ^ k.
Proof.
  apply (ispow2i_iff 1024). unfold Int.in_range, Int.int_min, Int.int_max. lia.
Defined.

Lemma ispow2i_log2 (n : Z) :
  Int.in_range n -> 1 <= n -> ispow2i n = true <-> 2 ^ Z.log2 n = n.
Proof.
  intros Hr Hn. unfold ispow2i.
  rewrite andb_true_iff, Z.gtb_ltb, Z.ltb_lt, Z.eqb_eq.
  rewrite wrap_id
    by (unfold Int.in_range, Int.int_min, Int.int_max in *; lia).
  split.
  - intros [_ Hl]. symmetry. apply land_pred_pow2; [lia|assumption].
  - intros H. split; [lia|]. rewrite <- H.
    apply pow2_land_pred, Z.log2_nonneg.
Qed.

Lemma log2i_is_log2 (fuel : nat) (m : Z) :
  (31 <= fuel)%nat -> 1 <= m -> Int.in_range m ->
  log2i fuel m = Some (Z.log2 m).
Proof.
  intros Hfuel Hm [_ Hmax]. unfold log2i.
  assert (Z.log2 m < 31).
  { apply Z.log2_lt_pow2; [lia|]. unfold Int.int_max in Hmax. lia. }
  pose proof (Z.log2_nonneg m).
  rewrite log2i_loop_pos; [reflexivity|lia|lia|unfold Int.int_max; lia|lia].
Qed.

(** X4. [log2i] inverts the powers of two, [log2i(2^k) = k] for
    [0 <= k < 31], and an int [n >= 1] passes [ispow2i] exactly when
    raising 2 to [log2i(n)] gives [n] back. *)
Theorem log2i_pow2_roundtrip (n k : Z) (fuel : nat) :
  (31 <= fuel)%nat -> 0 <= k < 31 -> 1 <= n -> Int.in_range n ->
  log2i fuel (2 ^ k) = Some k
  /\ (ispow2i n = true <->
      exists r, log2i fuel n = Some r /\ 2 ^ r = n).
Proof.
  intros Hfuel Hk Hn Hr.
  assert (Hp : 2 ^ k < 2 ^ 31) by (apply Z.pow_lt_mono_r; lia).
  pose proof (Z.pow_pos_nonneg 2 k ltac:(lia) ltac:(lia)) as Hpos.
  split.
  - rewrite log2i_is_log2;
      [|assumption|lia
       |unfold Int.in_range, Int.int_min, Int.int_max; lia].
    f_equal. apply Z.log2_pow2. lia.
  - rewrite (log2i_is_log2 fuel n Hfuel Hn Hr).
    rewrite (ispow2i_log2 n Hr Hn). split.
    + intros H. exists (Z.log2 n). split; [reflexivity|exact H].
    + intros (r & Hs & Hpow). inversion Hs as [Hlog]. subst r. exact Hpow.
Qed.

Lemma log2i_pow2_roundtrip_witness :
  log2i 31 (2 ^ 10) = Some 10
  /\ (ispow2i 1024 = true <->
      exists r, log2i 31 1024 = Some r /\ 2 ^ r = 1024).
Proof.
  apply (log2i_pow2_roundtrip 1024 10 31);
    unfold Int.in_range, Int.int_min, Int.int_max; lia.
Defined.

Lemma log2i_loop_neg (fuel : nat) : forall n i : Z,
  n < 0 -> log2i_loop fuel n i = None.
Proof.
  induction fuel as [|fuel IH]; intros n i Hn; [reflexivity|].
  cbn [log2i_loop]. unfold Int.shr.
  rewrite Z.shiftr_div_pow2 by lia. change (2 ^ 1) with 2.
  assert (Hd : n / 2 < 0) by (apply Z.div_lt_upper_bound; lia).
  destruct (Z.eqb_spec (n / 2) 0); [lia|]. apply IH, Hd.
Qed.

(** X5. On a negative int the loop of [log2i] never stops: the
    arithmetic shift keeps the value negative, so no number of iterations
    brings it to zero. *)
Theorem log2i_negative_diverges (n : Z) (fuel : nat) :
  n < 0 -> log2i fuel n = None.
Proof. intros Hn. apply log2i_loop_neg, Hn. Qed.

Lemma log2i_negative_diverges_witness : log2i 1000 (-1) = None.
Proof. apply (log2i_negative_diverges (-1) 1000). lia. Defined.

Lemma eucmodi_is_mod (a base : Z) :
  Int.in_range a -> Int.in_range base -> 0 < base ->
  eucmodi a base = Some (a mod base).
Proof.
  intros Ha Hbase Hpos. unfold eucmodi.
  rewrite rem_defined by assumption. cbn.
  pose proof (rem_mod_congr a base ltac:(lia)) as Hc.
  pose proof (Z.rem_bound_abs a base ltac:(lia)) as Hb.
  destruct (Z.geb_spec (Z.rem a base) 0) as [Hge|Hlt].
  - f_equal. rewrite <- Hc. symmetry. apply Z.mod_small. lia.
  - rewrite wrap_id by (unfold Int.in_range, Int.int_min, Int.int_max in *; lia).
    f_equal. rewrite <- Hc.
    rewrite <- (Z_mod_plus_full (Z.rem a base) 1 base), Z.mul_1_l.
    symmetry. apply Z.mod_small. lia.
Qed.

(** X6. For a positive base [eucmodi] is the flooring modulus: it does
    not change when the base is added to its argument, and it leaves its
    own results alone. *)
Theorem eucmodi_periodic (a base : Z) :
  Int.in_range a -> Int.in_range (a + base) -> Int.in_range base ->
  0 < base ->
  eucmodi a base = Some (a mod base)
  /\ eucmodi (a + base) base = eucmodi a base
  /\ eucmodi (a mod base) base = eucmodi a base.
Proof.
  intros Ha Hab Hbase Hpos.
  pose proof (Z.mod_pos_bound a base Hpos) as Hm.
  rewrite !eucmodi_is_mod; try assumption;
    [|unfold Int.in_range, Int.int_min, Int.int_max in *; lia].
  repeat split; f_equal.
  - replace (a + base) with (a + 1 * base) by lia. apply Z_mod_plus_full.
  - apply Z.mod_mod. lia.
Qed.

Lemma eucmodi_periodic_witness :
  eucmodi (-7) 3 = Some ((-7) mod 3)
  /\ eucmodi (-7 + 3) 3 = eucmodi (-7) 3
  /\ eucmodi ((-7) mod 3) 3 = eucmodi (-7) 3.
Proof.
  apply (eucmodi_periodic (-7) 3);
    unfold Int.in_range, Int.int_min, Int.int_max; lia.
Defined.

End IntegerFacts.

(** ** Float arithmetic used below *)

Section FloatArith.
Local Open Scope f32_scope.

Lemma add_comm (a b : float) : a + b = b + a.
Proof.
  destruct a as [sa|sa| |sa ma ea], b as [sb|sb| |sb mb eb];
    try reflexivity; try (destruct sa, sb; reflexivity).
  unfold F32.add, SFadd. rewrite (Z.min_comm eb ea). f_equal.
  apply Z.add_comm.
Qed.

Lemma mul_comm (a b : float) : a * b = b * a.
Proof.
  destruct a as [sa|sa| |sa ma ea], b as [sb|sb| |sb mb eb];
    try reflexivity; try (destruct sa, sb; reflexivity).
  unfold F32.mul, SFmul.
  rewrite (xorb_comm sb sa), (Pos.mul_comm mb ma), (Z.add_comm eb ea).
  reflexivity.
Qed.

(** Subtraction is the addition of the opposite. *)
Lemma sub_add_opp (a b : float) : a - b = a + - b.
Proof.
  destruct a as [sa|sa| |sa ma ea], b as [sb|sb| |sb mb eb];
    try reflexivity; destruct sa, sb; reflexivity.
Qed.

Lemma opp_involutive (a : float) : - - a = a.
Proof. destruct a as [s|s| |s m e]; cbn; rewrite ?negb_involutive; reflexivity. Qed.

(** A finite float minus itself is [+0]. *)
Lemma sub_diag (a : float) : is_finite a = true -> a - a = zero.
Proof.
  destruct a as [s|s| |s m e]; intros H; try discriminate H.
  - destruct s; reflexivity.
  - unfold F32.sub, SFsub. rewrite Z.sub_diag. reflexivity.
Qed.

Lemma mul_zero_r (a z : float) :
  is_finite a = true -> is_zero z = true -> is_zero (a * z) = true.
Proof.
  destruct a as [sa|sa| |sa ma ea], z as [sz|sz| |sz mz ez];
    intros Ha Hz; try discriminate Ha; try discriminate Hz; reflexivity.
Qed.

Lemma mul_zero_l (z a : float) :
  is_finite a = true -> is_zero z = true -> is_zero (z * a) = true.
Proof. intros Ha Hz. rewrite mul_comm. apply mul_zero_r; assumption. Qed.

Lemma add_zero_r (a z : float) :
  is_finite a = true -> is_zero z = true -> a + z == a.
Proof.
  destruct a as [sa|sa| |sa ma ea], z as [sz|sz| |sz mz ez];
    intros Ha Hz; try discriminate Ha; try discriminate Hz.
  - destruct sa, sz; reflexivity.
  - apply eqb_compare, SFcompare_refl. reflexivity.
Qed.

End FloatArith.

(** ** Scalar float helpers *)

Section ScalarFacts.
Local Open Scope f32_scope.

(** X7. [absf] clears the sign of every float except [-0.0], which is
    not below zero and is returned as it is; no result is below zero. *)
Theorem absf_sign (v : float) :
  (v <> S754_zero true -> absf v = SFabs v)
  /\ absf (S754_zero true) = S754_zero true
  /\ (absf v <? zero) = false.
Proof.
  split; [|split; [reflexivity|]].
  - intros Hv. destruct v as [s|s| |s m e]; try reflexivity;
      destruct s; try reflexivity. now elim Hv.
  - destruct v as [s|s| |s m e]; try reflexivity; destruct s; reflexivity.
Qed.

Lemma absf_sign_witness :
  absf (F (-3)) = F 3 /\ (absf (F (-3)) <? zero) = false.
Proof.
  pose proof (absf_sign (F (-3))) as (H1 & _ & H2).
  split; [apply H1; discriminate|exact H2].
Defined.

Lemma leb_not_gtb (a b : float) : a <= b -> (a >? b) = false.
Proof.
  intros H. destruct (a >? b) eqn:E; [exfalso|reflexivity].
  apply (ltb_irrefl b). apply ltb_leb_trans with a; assumption.
Qed.

Lemma ltb_irrefl_b (a : float) : (a <? a) = false.
Proof.
  destruct (a <? a) eqn:E; [|reflexivity]. now apply ltb_irrefl in E.
Qed.

Lemma clampf_idem (v lo hi : float) :
  lo <= hi -> clampf (clampf v lo hi) lo hi = clampf v lo hi.
Proof.
  intros H. unfold clampf.
  destruct (v <? lo) eqn:E1.
  - rewrite ltb_irrefl_b, (leb_not_gtb lo hi H). reflexivity.
  - destruct (v >? hi) eqn:E2.
    + assert (Hhl : (hi <? lo) = false).
      { destruct (hi <? lo) eqn:E; [exfalso|reflexivity].
        apply (ltb_irrefl hi). apply ltb_leb_trans with lo; assumption. }
      rewrite Hhl. unfold gtb. fold (ltb hi hi). rewrite ltb_irrefl_b.
      reflexivity.
    + rewrite E1, E2. reflexivity.
Qed.

(** X8. On ordered bounds and a [x] that is not NaN, [clampf] lands
    between the bounds, leaves a value between them alone, and is
    idempotent. *)
Theorem clampf_ordered (v lo hi : float) :
  lo <= hi -> is_nan v = false ->
  (lo <= clampf v lo hi /\ clampf v lo hi <= hi)
  /\ (lo <= v -> v <= hi -> clampf v lo hi = v)
  /\ clampf (clampf v lo hi) lo hi = clampf v lo hi.
Proof.
  intros H Hv. split; [apply clampf_in_range; assumption|].
  split; [|apply clampf_idem, H].
  intros H1 H2. unfold clampf.
  assert (E1 : (v <? lo) = false).
  { destruct (v <? lo) eqn:E; [exfalso|reflexivity].
    apply (ltb_irrefl v). apply ltb_leb_trans with lo; assumption. }
  rewrite E1, (leb_not_gtb v hi H2). reflexivity.
Qed.

Lemma clampf_ordered_witness :
  (F 0 <= clampf (F 11) (F 0) (F 10) /\ clampf (F 11) (F 0) (F 10) <= F 10)
  /\ (F 0 <= F 11 -> F 11 <= F 10 -> clampf (F 11) (F 0) (F 10) = F 11)
  /\ clampf (clampf (F 11) (F 0) (F 10)) (F 0) (F 10)
     = clampf (F 11) (F 0) (F 10).
Proof. apply (clampf_ordered (F 11) (F 0) (F 10)); reflexivity. Defined.

Lemma leb_nan_r (a : float) : (a <=? nan) = false.
Proof. destruct a; reflexivity. Qed.

(** Whatever its arguments, [clamp2f] clamps to ordered bounds, or to
    two NaN bounds. *)
Lemma fminf_fmaxf_cases (a b : float) :
  fminf a b <= fmaxf a b \/ (fminf a b = nan /\ fmaxf a b = nan).
Proof.
  destruct (is_nan a) eqn:Ea, (is_nan b) eqn:Eb.
  - right. apply is_nan_inv in Ea, Eb. subst. split; reflexivity.
  - left. apply is_nan_inv in Ea. subst a.
    unfold fminf, fmaxf, geb. rewrite Eb, leb_nan_r. cbn. apply leb_refl, Eb.
  - left. apply is_nan_inv in Eb. subst b.
    unfold fminf, fmaxf. cbn. rewrite !orb_true_r. apply leb_refl, Ea.
  - left. apply fminf_le_fmaxf; assumption.
Qed.

Lemma clampf_nan_arg (lo hi : float) : clampf nan lo hi = nan.
Proof. destruct lo, hi; reflexivity. Qed.

(** X9. NaN goes through the clamps: a NaN [x] is returned as it is,
    two NaN bounds leave [x] alone, and [clamp2f] with one NaN bound
    treats the other bound as both ends of the range. *)
Theorem clamp_nan (v b : float) :
  clampf nan v b = nan
  /\ clamp2f nan v b = nan
  /\ clampf v nan nan = v
  /\ (is_nan b = false ->
      clamp2f v nan b = clampf v b b /\ clamp2f v b nan = clampf v b b)
  /\ (is_nan b = false -> is_nan v = false ->
      clamp2f v nan b == b /\ clamp2f v b nan == b).
Proof.
  assert (Hb : is_nan b = false ->
               clamp2f v nan b = clampf v b b /\ clamp2f v b nan = clampf v b b).
  { intros Eb. unfold clamp2f, fminf, fmaxf, geb.
    rewrite Eb, !leb_nan_r. cbn. split; reflexivity. }
  split; [apply clampf_nan_arg|]. split; [apply clampf_nan_arg|].
  split; [destruct v; reflexivity|]. split; [exact Hb|].
  intros Eb Ev. destruct (Hb Eb) as [-> ->].
  assert (H : clampf v b b == b).
  { destruct (clampf_in_range v b b Ev (leb_refl b Eb)) as [H1 H2].
    apply leb_compare in H1, H2. apply eqb_compare.
    rewrite (SFcompare_antisym b (clampf v b b)) in H2.
    destruct H1 as [H1|H1]; rewrite H1 in H2; cbn in H2;
      destruct H2 as [H2|H2]; try discriminate H2.
    rewrite (SFcompare_antisym b (clampf v b b)), H1. reflexivity. }
  split; exact H.
Qed.

Lemma clamp_nan_witness :
  clamp2f (F 3) nan (F 7) == F 7 /\ clamp2f (F 9) (F 7) nan == F 7.
Proof.
  pose proof (clamp_nan (F 3) (F 7)) as (_ & _ & _ & _ & H1).
  pose proof (clamp_nan (F 9) (F 7)) as (_ & _ & _ & _ & H2).
  split; [apply H1; reflexivity|apply H2; reflexivity].
Defined.

Lemma clamp2f_idem (v lo hi : float) :
  clamp2f (clamp2f v lo hi) lo hi = clamp2f v lo hi.
Proof.
  unfold clamp2f.
  destruct (fminf_fmaxf_cases lo hi) as [H|[-> ->]].
  - apply clampf_idem, H.
  - destruct v; reflexivity.
Qed.

(** X10. [clamp2f] is idempotent, whatever the order of its bounds and
    whether or not they are NaN; so are [Vec::clamp] and [Rect::nudge],
    which apply it to each coordinate: a clamped point and a nudged
    rectangle stay where they are. *)
Theorem clamp2f_idempotent (v lo hi : float) (pt : Vec) (r bound : Rect) :
  clamp2f (clamp2f v lo hi) lo hi = clamp2f v lo hi
  /\ Vec_clamp (Vec_clamp pt bound) bound = Vec_clamp pt bound
  /\ nudge (nudge r bound) bound = nudge r bound.
Proof.
  split; [apply clamp2f_idem|]. split.
  - unfold Vec_clamp. cbn [x y]. rewrite !clamp2f_idem. reflexivity.
  - unfold nudge. cbn [pos size x y]. rewrite !clamp2f_idem. reflexivity.
Qed.

(** X11. On bounds given in strict order [clamp2f] is [clampf]. *)
Theorem clamp2f_ordered (v lo hi : float) :
  lo < hi -> clamp2f v lo hi = clampf v lo hi.
Proof.
  intros H. destruct (ltb_not_nan _ _ H) as [Hlo Hhi].
  unfold clamp2f, fminf, fmaxf.
  rewrite (ltb_leb _ _ H), Hhi. cbn.
  assert (E : (lo >=? hi) = false).
  { destruct (lo >=? hi) eqn:E; [exfalso|reflexivity].
    apply (ltb_irrefl lo). apply ltb_leb_trans with hi; assumption. }
  rewrite E. reflexivity.
Qed.

Lemma clamp2f_ordered_witness :
  clamp2f (F 11) (F 0) (F 10) = clampf (F 11) (F 0) (F 10).
Proof. apply (clamp2f_ordered (F 11) (F 0) (F 10)). reflexivity. Defined.

(** X12. [chopf] returns [+0.0] when [x] lies strictly between [-eps]
    and [eps], and [x] itself otherwise; in particular the two ends are
    kept, no result other than zero lies strictly inside, and chopping
    twice changes nothing more. *)
Theorem chopf_open_interval (v eps : float) :
  (- eps < v -> v < eps -> chopf v eps = zero)
  /\ ((- eps <? v) = false -> chopf v eps = v)
  /\ ((v <? eps) = false -> chopf v eps = v)
  /\ (- eps < chopf v eps -> chopf v eps < eps -> chopf v eps = zero)
  /\ chopf eps eps = eps
  /\ chopf (- eps) eps = - eps
  /\ chopf (chopf v eps) eps = chopf v eps.
Proof.
  unfold chopf. split; [intros H1 H2; rewrite H1, H2; reflexivity|].
  split; [intros H; rewrite H; reflexivity|].
  split; [intros H; rewrite H, andb_false_r; reflexivity|].
  split.
  - destruct ((- eps <? v) && (v <? eps)) eqn:E; [reflexivity|].
    intros H1 H2. rewrite H1, H2 in E. discriminate E.
  - rewrite !ltb_irrefl_b, andb_false_r. cbn.
    split; [reflexivity|]. split; [reflexivity|].
    destruct ((- eps <? v) && (v <? eps)) eqn:E.
    + destruct ((- eps <? zero) && (zero <? eps)); reflexivity.
    + rewrite E. reflexivity.
Qed.

Lemma chopf_open_interval_witness :
  chopf (F 1 / F 4) (F 1 / F 2) = zero
  /\ chopf (F 100) (F 1) = F 100
  /\ chopf (F 1 / F 2) (F 1 / F 2) = F 1 / F 2.
Proof.
  pose proof (chopf_open_interval (F 1 / F 4) (F 1 / F 2)) as (H1 & _).
  pose proof (chopf_open_interval (F 100) (F 1)) as (_ & _ & H2 & _).
  pose proof (chopf_open_interval (F 1 / F 4) (F 1 / F 2))
    as (_ & _ & _ & _ & H3 & _).
  split; [apply H1; reflexivity|]. split; [apply H2; reflexivity|exact H3].
Defined.

End ScalarFacts.

(** ** Rescaling and interpolation *)

Section InterpolationFacts.
Local Open Scope f32_scope.

Lemma div_zero_l (z d : float) :
  is_zero z = true -> is_finite d = true -> is_zero d = false ->
  is_zero (z / d) = true.
Proof.
  destruct z as [sz|sz| |sz mz ez], d as [sd|sd| |sd md ed];
    intros Hz Hd Hn; try discriminate Hz; try discriminate Hd;
    try discriminate Hn; reflexivity.
Qed.

Lemma is_zero_finite (z : float) : is_zero z = true -> is_finite z = true.
Proof. destruct z; intros H; try discriminate H; reflexivity. Qed.

(** X13. [rescalef] sends the start of a source range of finite, nonzero
    width to the start of the target range; on a source range of zero
    width ([xMin == xMax]) it divides by zero and no result is finite. *)
Theorem rescalef_range_start (v xMin xMax yMin yMax : float) :
  (is_finite xMin = true ->
   is_finite (xMax - xMin) = true -> is_zero (xMax - xMin) = false ->
   is_finite (yMax - yMin) = true -> is_finite yMin = true ->
   rescalef xMin xMin xMax yMin yMax == yMin)
  /\ (is_finite xMin = true ->
      is_finite (rescalef v xMin xMin yMin yMax) = false).
Proof.
  split.
  - intros Hx Hd Hn Hw Hy. unfold rescalef.
    rewrite (sub_diag xMin Hx).
    apply add_zero_r; [exact Hy|].
    apply mul_zero_l; [exact Hw|].
    apply div_zero_l; [reflexivity|exact Hd|exact Hn].
  - intros Hx. unfold rescalef. rewrite (sub_diag xMin Hx).
    destruct (v - xMin) as [sn|sn| |sn mn en];
      destruct (yMax - yMin) as [sw|sw| |sw mw ew];
      destruct yMin as [sy|sy| |sy my ey];
      try reflexivity;
      try (destruct sn; reflexivity);
      try (destruct sn, sw; reflexivity);
      try (destruct sn, sy; reflexivity);
      destruct sn, sw, sy; reflexivity.
Qed.

Lemma rescalef_range_start_witness :
  rescalef (F 2) (F 2) (F 10) (F 100) (F 200) == F 100
  /\ is_finite (rescalef (F 5) (F 2) (F 2) (F 100) (F 200)) = false.
Proof.
  pose proof (rescalef_range_start (F 5) (F 2) (F 10) (F 100) (F 200))
    as [H1 _].
  pose proof (rescalef_range_start (F 5) (F 2) (F 2) (F 100) (F 200))
    as [_ H2].
  split; [apply H1; reflexivity|apply H2; reflexivity].
Defined.

Lemma crossf_zero_frac (a b : float) :
  is_finite a = true -> is_finite (b - a) = true -> crossf a b zero == a.
Proof.
  intros Ha Hd. unfold crossf.
  apply add_zero_r; [exact Ha|]. apply mul_zero_l; [exact Hd|reflexivity].
Qed.

(** X14. [crossf] returns its first end at fraction zero, and when the
    two ends are the same finite float it returns that float at every
    finite fraction. *)
Theorem crossf_ends (a b frac : float) :
  (is_finite a = true -> is_finite (b - a) = true -> crossf a b zero == a)
  /\ (is_finite a = true -> is_finite frac = true -> crossf a a frac == a).
Proof.
  split.
  - intros Ha Hd. unfold crossf.
    apply add_zero_r; [exact Ha|]. apply mul_zero_l; [exact Hd|reflexivity].
  - intros Ha Hf. unfold crossf. rewrite (sub_diag a Ha).
    apply add_zero_r; [exact Ha|]. apply mul_zero_r; [exact Hf|reflexivity].
Qed.

Lemma crossf_ends_witness :
  crossf (F 3) (F 10) zero == F 3 /\ crossf (F 3) (F 3) (F 7) == F 3.
Proof.
  pose proof (crossf_ends (F 3) (F 10) (F 7)) as [H1 H2].
  split; [apply H1; reflexivity|apply H2; reflexivity].
Defined.

Lemma index_none_neg (p : list float) (i : Z) : (i < 0)%Z -> index p i = None.
Proof. intros H. unfold index. destruct (Z.ltb_spec i 0); [reflexivity|lia]. Qed.

Lemma index_none_past (p : list float) (i : Z) :
  (Z.of_nat (length p) <= i)%Z -> index p i = None.
Proof.
  intros H. unfold index. destruct (Z.ltb_spec i 0); [reflexivity|].
  apply lookup_ge_None. lia.
Qed.

(** X15. [interpf] has no result when the conversion of [x] to [int] is
    undefined, when the index is negative, and when [p[xi+1]] is past the
    end: an array of [floor(x) + 1] elements, the length that the header's
    comment asks for, is one element short. *)
Theorem interpf_out_of_bounds (p : list float) (v : float) (i : Z) :
  (to_int v = None -> interpf p v = None)
  /\ (to_int v = Some i -> (i < 0)%Z -> interpf p v = None)
  /\ (to_int v = Some i -> (Z.of_nat (length p) <= i + 1)%Z ->
      interpf p v = None).
Proof.
  unfold interpf. split; [intros ->; reflexivity|]. split.
  - intros -> Hi. cbn. rewrite (index_none_neg p i Hi). reflexivity.
  - intros Hv Hlen. rewrite Hv. cbn.
    assert (Hr : Int.in_range i).
    { unfold to_int in Hv. destruct (trunc v) as [z|]; [|discriminate Hv].
      cbn in Hv. unfold Int.in_range.
      destruct (Z.leb_spec Int.int_min z), (Z.leb_spec z Int.int_max);
        cbn in Hv; try discriminate Hv. inversion Hv; subst. lia. }
    assert (Hn : index p (Int.wrap (i + 1)) = None).
    { destruct (Z.eq_dec i Int.int_max) as [->|Hne].
      - apply index_none_neg. reflexivity.
      - rewrite wrap_id
          by (unfold Int.in_range, Int.int_min, Int.int_max in *; lia).
        apply index_none_past, Hlen. }
    rewrite Hn. destruct (index p i); reflexivity.
Qed.

Lemma interpf_out_of_bounds_witness :
  interpf [F 10; F 20; F 30] (F 2) = None
  /\ interpf [F 10; F 20; F 30] (F (-1)) = None
  /\ interpf [F 10; F 20; F 30] infinity = None.
Proof.
  pose proof (interpf_out_of_bounds [F 10; F 20; F 30] (F 2) 2)
    as (_ & _ & H1).
  pose proof (interpf_out_of_bounds [F 10; F 20; F 30] (F (-1)) (-1))
    as (_ & H2 & _).
  pose proof (interpf_out_of_bounds [F 10; F 20; F 30] infinity 0)
    as (H3 & _).
  split; [apply H1; [reflexivity|cbn; lia]|].
  split; [apply H2; [reflexivity|lia]|apply H3; reflexivity].
Defined.

Lemma to_int_finite (v : float) (i : Z) :
  to_int v = Some i -> is_finite v = true.
Proof. destruct v; intros H; try discriminate H; reflexivity. Qed.

(** X16. At an index that is an integer, [x = (float) i], [interpf]
    returns the element [p[i]] itself; it still reads [p[i+1]], which has
    to be there and to lie at a finite distance. *)
Theorem interpf_integer_index (p : list float) (v : float) (i : Z) (a b : float) :
  to_int v = Some i -> of_int i = v ->
  index p i = Some a -> index p (Int.wrap (i + 1)) = Some b ->
  is_finite a = true -> is_finite (b - a) = true ->
  exists r, interpf p v = Some r /\ r == a.
Proof.
  intros Hv Hi Ha Hb Hfa Hfd. unfold interpf.
  rewrite Hv. cbn. rewrite Ha. cbn. rewrite Hb. cbn.
  eexists. split; [reflexivity|].
  rewrite Hi, (sub_diag v (to_int_finite v i Hv)).
  apply crossf_zero_frac; assumption.
Qed.

Lemma interpf_integer_index_witness :
  exists r, interpf [F 10; F 20; F 30] (F 1) = Some r /\ r == F 20.
Proof.
  apply (interpf_integer_index [F 10; F 20; F 30] (F 1) 1 (F 20) (F 30));
    reflexivity.
Defined.

End InterpolationFacts.

(** ** Complex multiplication, continued *)

Section ComplexFacts.
Local Open Scope f32_scope.

(** X17. [cmultf] does not depend on the order of its two operands:
    the binary32 product and sum commute. *)
Theorem cmultf_comm (cr ci : loc) (ar ai br bi : float) (st : store) :
  cmultf cr ci ar ai br bi st = cmultf cr ci br bi ar ai st.
Proof.
  unfold cmultf. cbn zeta.
  rewrite (mul_comm br ar), (mul_comm bi ai), (mul_comm br ai),
    (mul_comm bi ar), (add_comm (ai * br) (ar * bi)).
  reflexivity.
Qed.

(** X18. [cmultf] writes the imaginary part last: [ci] always ends with
    it, [cr] ends with the real part only when it is another cell than
    [ci], and every other cell of the store keeps its value. *)
Theorem cmultf_frame (cr ci : loc) (ar ai br bi : float) (st : store) :
  cmultf cr ci ar ai br bi st !! ci = Some (ar * bi + ai * br)
  /\ (cr ≠ ci -> cmultf cr ci ar ai br bi st !! cr = Some (ar * br - ai * bi))
  /\ (cr = ci -> cmultf cr ci ar ai br bi st = <[ci := ar * bi + ai * br]> st)
  /\ (forall l : loc, l ≠ cr -> l ≠ ci ->
                      cmultf cr ci ar ai br bi st !! l = st !! l).
Proof.
  unfold cmultf. cbn zeta. split; [apply lookup_insert_eq|]. split.
  - intros Hne. rewrite lookup_insert_ne by congruence. apply lookup_insert_eq.
  - split.
    + intros ->. apply insert_insert_eq.
    + intros l H1 H2. rewrite !lookup_insert_ne by congruence. reflexivity.
Qed.

Lemma cmultf_frame_witness :
  cmultf 1 1 (F 3) (F 4) (F 1) (F 2) ∅ !! 1%positive = Some (F 10)
  /\ cmultf 1 2 (F 3) (F 4) (F 1) (F 2) ∅ !! 1%positive = Some (F (-5)).
Proof.
  pose proof (cmultf_frame 1 1 (F 3) (F 4) (F 1) (F 2) ∅) as (H1 & _).
  pose proof (cmultf_frame 1 2 (F 3) (F 4) (F 1) (F 2) ∅) as (_ & H2 & _).
  split; [exact H1|apply H2; discriminate].
Defined.

End ComplexFacts.

(** ** Vectors *)

Section VecFacts.
Local Open Scope f32_scope.

(** X19. Subtracting a vector is adding its negation, and negating
    twice gives the vector back. *)
Theorem Vec_minus_plus_neg (a b : Vec) :
  Vec_minus a b = Vec_plus a (Vec_neg b)
  /\ Vec_neg (Vec_neg a) = a.
Proof.
  split.
  - unfold Vec_minus, Vec_plus, Vec_neg. cbn [x y].
    rewrite !sub_add_opp. reflexivity.
  - destruct a as [ax ay]. unfold Vec_neg. cbn [x y].
    rewrite !opp_involutive. reflexivity.
Qed.

(** X20. The sum, the componentwise product and the dot product of two
    vectors do not depend on their order. *)
Theorem Vec_ops_comm (a b : Vec) :
  Vec_plus a b = Vec_plus b a
  /\ Vec_multv a b = Vec_multv b a
  /\ Vec_dot a b = Vec_dot b a.
Proof.
  unfold Vec_plus, Vec_multv, Vec_dot.
  rewrite (add_comm (x b) (x a)), (add_comm (y b) (y a)),
    (mul_comm (x b) (x a)), (mul_comm (y b) (y a)).
  repeat split; reflexivity.
Qed.

Lemma eqb_sym (a b : float) : (a =? b) = (b =? a).
Proof.
  unfold F32.eqb, SFeqb. rewrite (SFcompare_antisym a b).
  destruct (SFcompare a b) as [[]|]; reflexivity.
Qed.

Lemma eqb_trans (a b c : float) : a == b -> b == c -> a == c.
Proof.
  rewrite !eqb_compare. intros H1 H2.
  rewrite (SFcompare_Eq_l a b c H1). exact H2.
Qed.

Lemma eqb_refl_iff (a : float) : a == a <-> is_nan a = false.
Proof.
  split.
  - intros H. apply eqb_compare, eq_sym, SFcompare_nan_ne in H. tauto.
  - intros H. apply eqb_compare, SFcompare_refl, H.
Qed.

(** X21. [Vec::isEqual] is symmetric and transitive, but a vector with a
    NaN coordinate is not equal to itself; the two zeros are equal, so
    [isZero] is [isEqual] to the default vector and accepts [-0.0]. *)
Theorem Vec_isEqual_equiv (a b c : Vec) :
  Vec_isEqual a b = Vec_isEqual b a
  /\ (Vec_isEqual a b = true -> Vec_isEqual b c = true ->
      Vec_isEqual a c = true)
  /\ (Vec_isEqual a a = true <->
      is_nan (x a) = false /\ is_nan (y a) = false)
  /\ Vec_isZero a = Vec_isEqual a (mkVec zero zero)
  /\ Vec_isZero (mkVec (S754_zero true) (S754_zero true)) = true.
Proof.
  unfold Vec_isEqual, Vec_isZero. cbn [x y].
  split; [rewrite (eqb_sym (x b)), (eqb_sym (y b)); reflexivity|].
  split.
  - rewrite !andb_true_iff. intros [H1 H2] [H3 H4].
    split; eapply eqb_trans; eassumption.
  - split; [|split; reflexivity].
    rewrite andb_true_iff, !eqb_refl_iff. reflexivity.
Qed.

Lemma Vec_isEqual_equiv_witness :
  Vec_isEqual (mkVec (F 1) zero) (mkVec (F 1) zero) = true
  /\ Vec_isEqual (mkVec (F 1) (S754_zero true)) (mkVec (F 1) zero) = true.
Proof.
  pose proof (Vec_isEqual_equiv (mkVec (F 1) zero) (mkVec (F 1) zero)
                (mkVec (F 1) zero)) as (_ & _ & H1 & _).
  pose proof (Vec_isEqual_equiv (mkVec (F 1) (S754_zero true))
                (mkVec (F 1) zero) (mkVec (F 1) zero)) as (_ & H2 & _).
  split; [apply H1; split; reflexivity|apply H2; reflexivity].
Defined.

Lemma fminf_lower (a b : float) :
  is_nan a = false -> is_nan b = false ->
  fminf a b <= a /\ fminf a b <= b.
Proof.
  intros Ha Hb. unfold fminf. rewrite Hb, orb_false_r.
  destruct (a <=? b) eqn:E.
  - split; [apply leb_refl, Ha|exact E].
  - split; [|apply leb_refl, Hb].
    apply ltb_leb, not_leb_ltb; assumption.
Qed.

Lemma fmaxf_upper (a b : float) :
  is_nan a = false -> is_nan b = false ->
  a <= fmaxf a b /\ b <= fmaxf a b.
Proof.
  intros Ha Hb. unfold fmaxf. rewrite Hb, orb_false_r.
  destruct (a >=? b) eqn:E.
  - split; [apply leb_refl, Ha|exact E].
  - split; [|apply leb_refl, Hb].
    apply ltb_leb. apply (not_leb_ltb b a); assumption.
Qed.

Lemma fminf_nan_r (a b : float) : is_nan b = true -> fminf a b = a /\ fmaxf a b = a.
Proof.
  intros H. unfold fminf, fmaxf. rewrite H, !orb_true_r. split; reflexivity.
Qed.

(** X22. For vectors without NaN, [min] is below both arguments and
    [max] above both on each coordinate; each of the four coordinates of
    the two results is the matching coordinate of one of the arguments;
    and a NaN coordinate of the second vector is ignored. *)
Theorem Vec_min_max_bounds (a b : Vec) :
  (is_nan (x a) = false -> is_nan (x b) = false ->
   x (Vec_min a b) <= x a /\ x (Vec_min a b) <= x b
   /\ x a <= x (Vec_max a b) /\ x b <= x (Vec_max a b))
  /\ (is_nan (y a) = false -> is_nan (y b) = false ->
      y (Vec_min a b) <= y a /\ y (Vec_min a b) <= y b
      /\ y a <= y (Vec_max a b) /\ y b <= y (Vec_max a b))
  /\ (x (Vec_min a b) = x a \/ x (Vec_min a b) = x b)
  /\ (y (Vec_min a b) = y a \/ y (Vec_min a b) = y b)
  /\ (x (Vec_max a b) = x a \/ x (Vec_max a b) = x b)
  /\ (y (Vec_max a b) = y a \/ y (Vec_max a b) = y b)
  /\ (is_nan (x b) = true -> x (Vec_min a b) = x a /\ x (Vec_max a b) = x a)
  /\ (is_nan (y b) = true -> y (Vec_min a b) = y a /\ y (Vec_max a b) = y a)
  /\ (is_nan (x a) = true -> is_nan (x b) = false ->
      x (Vec_min a b) = x b /\ x (Vec_max a b) = x b)
  /\ (is_nan (y a) = true -> is_nan (y b) = false ->
      y (Vec_min a b) = y b /\ y (Vec_max a b) = y b).
Proof.
  assert (Hl : forall u w : float, is_nan u = true -> is_nan w = false ->
                 fminf u w = w /\ fmaxf u w = w).
  { intros u w Hu Hw. apply is_nan_inv in Hu. subst u.
    unfold fminf, fmaxf, geb. rewrite Hw, leb_nan_r. split; reflexivity. }
  unfold Vec_min, Vec_max. cbn [x y].
  split; [intros Ha Hb;
          destruct (fminf_lower _ _ Ha Hb), (fmaxf_upper _ _ Ha Hb); auto|].
  split; [intros Ha Hb;
          destruct (fminf_lower _ _ Ha Hb), (fmaxf_upper _ _ Ha Hb); auto|].
  split; [unfold fminf; destruct (_ || _); auto|].
  split; [unfold fminf; destruct (_ || _); auto|].
  split; [unfold fmaxf; destruct (_ || _); auto|].
  split; [unfold fmaxf; destruct (_ || _); auto|].
  split; [apply fminf_nan_r|]. split; [apply fminf_nan_r|].
  split; apply Hl.
Qed.

Lemma Vec_min_max_bounds_witness :
  x (Vec_min (mkVec (F 1) (F 5)) (mkVec (F 3) (F 2))) <= F 1
  /\ x (Vec_min (mkVec (F 1) (F 5)) (mkVec nan nan)) = F 1.
Proof.
  pose proof (Vec_min_max_bounds (mkVec (F 1) (F 5)) (mkVec (F 3) (F 2)))
    as (H1 & _).
  pose proof (Vec_min_max_bounds (mkVec (F 1) (F 5)) (mkVec nan nan))
    as (_ & _ & _ & _ & _ & _ & H2 & _).
  split; [apply H1; reflexivity|apply H2; reflexivity].
Defined.

End VecFacts.

(** ** Containment and intersection *)

Section ContainFacts.
Local Open Scope f32_scope.

Lemma contains_spec (r : Rect) (v : Vec) :
  contains r v = true <->
  (x (pos r) <= x v /\ x v < x (pos r) + x (size r))
  /\ (y (pos r) <= y v /\ y v < y (pos r) + y (size r)).
Proof. unfold contains. rewrite !andb_true_iff. tauto. Qed.

Lemma containsRect_spec (a b : Rect) :
  containsRect a b = true <->
  (x (pos a) <= x (pos b)
   /\ x (pos b) + x (size b) <= x (pos a) + x (size a))
  /\ (y (pos a) <= y (pos b)
      /\ y (pos b) + y (size b) <= y (pos a) + y (size a)).
Proof. unfold containsRect. rewrite !andb_true_iff. tauto. Qed.

Lemma intersects_spec (a b : Rect) :
  intersects a b = true <->
  (x (pos b) < x (pos a) + x (size a) /\ x (pos a) < x (pos b) + x (size b))
  /\ (y (pos b) < y (pos a) + y (size a)
      /\ y (pos a) < y (pos b) + y (size b)).
Proof. unfold intersects, gtb. rewrite !andb_true_iff. reflexivity. Qed.

(** A value inside the half-open span is a fixed point of the
    auto-ordering clamp to that span. *)
Lemma clamp2f_in_span (v lo hi : float) :
  lo <= v -> v < hi -> clamp2f v lo hi = v.
Proof.
  intros H1 H2.
  assert (H : lo < hi) by (apply leb_ltb_trans with v; assumption).
  destruct (ltb_not_nan _ _ H) as [Hlo Hhi].
  unfold clamp2f, fminf, fmaxf. rewrite (ltb_leb _ _ H), Hhi. cbn [orb].
  assert (E : (lo >=? hi) = false).
  { destruct (lo >=? hi) eqn:E; [exfalso|reflexivity].
    apply (ltb_irrefl lo). apply ltb_leb_trans with hi; assumption. }
  rewrite E. unfold clampf.
  assert (E1 : (v <? lo) = false).
  { destruct (v <? lo) eqn:E1; [exfalso|reflexivity].
    apply (ltb_irrefl v). apply ltb_leb_trans with lo; assumption. }
  rewrite E1. cbn [orb].
  rewrite (leb_not_gtb v hi (ltb_leb _ _ H2)). reflexivity.
Qed.

(** Clamping a value at or beyond the end of an ordered span gives a
    value at or beyond that end. *)
Lemma clamp2f_beyond (v lo hi : float) :
  lo <= hi -> hi <= v -> hi <= clamp2f v lo hi.
Proof.
  intros Hord Hv.
  destruct (fmaxf_ordered lo hi Hord) as (Hmin & _ & _ & HMge).
  unfold clamp2f. rewrite Hmin. unfold clampf.
  destruct (v <? lo) eqn:E1.
  - exfalso. apply (ltb_irrefl v).
    apply ltb_leb_trans with lo; [exact E1|].
    apply leb_trans with hi; assumption.
  - destruct (v >? fmaxf lo hi); assumption.
Qed.

(** X23. A point that a rectangle contains is left where it is by
    [Vec::clamp]; a point at or beyond the far edge of an ordered span is
    clamped onto a point that the rectangle does not contain, its far
    edges being excluded. *)
Theorem Vec_clamp_contains (v : Vec) (bound : Rect) :
  (contains bound v = true -> Vec_clamp v bound = v)
  /\ (x (pos bound) <= x (pos bound) + x (size bound) ->
      x (pos bound) + x (size bound) <= x v ->
      contains bound (Vec_clamp v bound) = false)
  /\ (y (pos bound) <= y (pos bound) + y (size bound) ->
      y (pos bound) + y (size bound) <= y v ->
      contains bound (Vec_clamp v bound) = false).
Proof.
  split; [|split].
  - intros H. apply contains_spec in H as [[Hx1 Hx2] [Hy1 Hy2]].
    destruct v as [vx vy]. unfold Vec_clamp. cbn [x y] in *.
    rewrite !clamp2f_in_span by assumption. reflexivity.
  - intros Hord Hv. pose proof (clamp2f_beyond _ _ _ Hord Hv) as H.
    unfold contains, Vec_clamp. cbn [x y].
    apply leb_not_gtb in H. unfold gtb in H. fold (ltb
      (clamp2f (x v) (x (pos bound)) (x (pos bound) + x (size bound)))
      (x (pos bound) + x (size bound))) in H.
    rewrite H, andb_false_r. reflexivity.
  - intros Hord Hv. pose proof (clamp2f_beyond _ _ _ Hord Hv) as H.
    unfold contains, Vec_clamp. cbn [x y].
    apply leb_not_gtb in H. unfold gtb in H. fold (ltb
      (clamp2f (y v) (y (pos bound)) (y (pos bound) + y (size bound)))
      (y (pos bound) + y (size bound))) in H.
    rewrite H, andb_false_r. reflexivity.
Qed.

Lemma Vec_clamp_contains_witness :
  Vec_clamp (mkVec (F 3) (F 4)) (R 0 0 10 10) = mkVec (F 3) (F 4)
  /\ contains (R 0 0 10 10) (Vec_clamp (mkVec (F 12) (F 4)) (R 0 0 10 10))
     = false.
Proof.
  pose proof (Vec_clamp_contains (mkVec (F 3) (F 4)) (R 0 0 10 10))
    as (H1 & _).
  pose proof (Vec_clamp_contains (mkVec (F 12) (F 4)) (R 0 0 10 10))
    as (_ & H2 & _).
  split; [apply H1; reflexivity|apply H2; reflexivity].
Defined.

(** X24. A rectangle contains none of its three far corners, whatever
    its size; it contains its own position exactly when its extent is
    positive on both axes. *)
Theorem contains_corners (r : Rect) :
  contains r (getBottomRight r) = false
  /\ contains r (getTopRight r) = false
  /\ contains r (getBottomLeft r) = false
  /\ (contains r (pos r) = true <->
      x (pos r) < x (pos r) + x (size r)
      /\ y (pos r) < y (pos r) + y (size r)).
Proof.
  unfold contains, getBottomRight, getTopRight, getBottomLeft, Vec_plus.
  cbn [x y].
  split; [rewrite !ltb_irrefl_b, !andb_false_r; reflexivity|].
  split; [rewrite !ltb_irrefl_b, !andb_false_r; reflexivity|].
  split; [rewrite !ltb_irrefl_b, !andb_false_r; reflexivity|].
  rewrite !andb_true_iff. split.
  - tauto.
  - intros [Hx Hy].
    destruct (ltb_not_nan _ _ Hx) as [Hx0 _].
    destruct (ltb_not_nan _ _ Hy) as [Hy0 _].
    repeat split; try assumption; apply leb_refl; assumption.
Qed.

Lemma contains_corners_witness :
  contains (R 0 0 10 10) (pos (R 0 0 10 10)) = true
  /\ contains (R 0 0 10 10) (mkVec (F 10) (F 10)) = false.
Proof.
  pose proof (contains_corners (R 0 0 10 10)) as (H1 & _ & _ & H2).
  split; [apply H2; split; reflexivity|exact H1].
Defined.

(** X25. Two rectangles that contain a common point intersect; and two
    rectangles side by side, the far edge of one not beyond the near edge
    of the other, have no point in common. *)
Theorem contains_common_point (a b : Rect) (v : Vec) :
  (contains a v = true -> contains b v = true -> intersects a b = true)
  /\ (x (pos a) + x (size a) <= x (pos b) ->
      contains a v = true -> contains b v = false)
  /\ (y (pos a) + y (size a) <= y (pos b) ->
      contains a v = true -> contains b v = false).
Proof.
  split; [|split].
  - intros Ha Hb.
    apply contains_spec in Ha as [[Ax1 Ax2] [Ay1 Ay2]].
    apply contains_spec in Hb as [[Bx1 Bx2] [By1 By2]].
    apply intersects_spec.
    repeat split; eapply leb_ltb_trans; eassumption.
  - intros Hadj Ha. apply contains_spec in Ha as [[Ax1 Ax2] _].
    destruct (contains b v) eqn:Hb; [exfalso|reflexivity].
    apply contains_spec in Hb as [[Bx1 _] _].
    apply (ltb_irrefl (x v)). apply ltb_leb_trans with (x (pos b)); [|exact Bx1].
    apply ltb_leb_trans with (x (pos a) + x (size a)); assumption.
  - intros Hadj Ha. apply contains_spec in Ha as [_ [Ay1 Ay2]].
    destruct (contains b v) eqn:Hb; [exfalso|reflexivity].
    apply contains_spec in Hb as [_ [By1 _]].
    apply (ltb_irrefl (y v)). apply ltb_leb_trans with (y (pos b)); [|exact By1].
    apply ltb_leb_trans with (y (pos a) + y (size a)); assumption.
Qed.

Lemma contains_common_point_witness :
  intersects (R 0 0 10 10) (R 5 5 10 10) = true
  /\ contains (R 10 0 10 10) (mkVec (F 9) (F 5)) = false.
Proof.
  pose proof (contains_common_point (R 0 0 10 10) (R 5 5 10 10)
                (mkVec (F 5) (F 5))) as (H1 & _).
  pose proof (contains_common_point (R 0 0 10 10) (R 10 0 10 10)
                (mkVec (F 9) (F 5))) as (_ & H2 & _).
  split; [apply H1; reflexivity|apply H2; reflexivity].
Defined.

(** X26. Containment of rectangles is transitive, and a rectangle
    contains every point of a rectangle that it contains. *)
Theorem containsRect_trans (a b c : Rect) (v : Vec) :
  containsRect a b = true ->
  (containsRect b c = true -> containsRect a c = true)
  /\ (contains b v = true -> contains a v = true).
Proof.
  intros Hab. apply containsRect_spec in Hab as [[Ax1 Ax2] [Ay1 Ay2]].
  split.
  - intros Hbc. apply containsRect_spec in Hbc as [[Bx1 Bx2] [By1 By2]].
    apply containsRect_spec.
    repeat split; eapply leb_trans; eassumption.
  - intros Hv. apply contains_spec in Hv as [[Vx1 Vx2] [Vy1 Vy2]].
    apply contains_spec. repeat split.
    + eapply leb_trans; eassumption.
    + eapply ltb_leb_trans; eassumption.
    + eapply leb_trans; eassumption.
    + eapply ltb_leb_trans; eassumption.
Qed.

Lemma containsRect_trans_witness :
  containsRect (R 0 0 10 10) (R 2 2 2 2) = true
  /\ contains (R 0 0 10 10) (mkVec (F 3) (F 3)) = true.
Proof.
  pose proof (containsRect_trans (R 0 0 10 10) (R 1 1 5 5) (R 2 2 2 2)
                (mkVec (F 3) (F 3)) eq_refl) as [H1 H2].
  split; [apply H1; reflexivity|apply H2; reflexivity].
Defined.

(** X27. A rectangle intersects every rectangle of positive extent that
    it contains. *)
Theorem containsRect_intersects (a b : Rect) :
  containsRect a b = true ->
  x (pos b) < x (pos b) + x (size b) ->
  y (pos b) < y (pos b) + y (size b) ->
  intersects a b = true.
Proof.
  intros Hab Hx Hy.
  apply containsRect_spec in Hab as [[Ax1 Ax2] [Ay1 Ay2]].
  apply intersects_spec. repeat split.
  - eapply ltb_leb_trans; eassumption.
  - eapply leb_ltb_trans; eassumption.
  - eapply ltb_leb_trans; eassumption.
  - eapply leb_ltb_trans; eassumption.
Qed.

Lemma containsRect_intersects_witness :
  intersects (R 0 0 10 10) (R 2 2 2 2) = true.
Proof.
  apply (containsRect_intersects (R 0 0 10 10) (R 2 2 2 2)); reflexivity.
Defined.

(** X28. [intersects] is symmetric, and a rectangle intersects itself
    exactly when its extent is positive on both axes: a rectangle of zero
    or negative width or height does not intersect itself. *)
Theorem intersects_sym_self (a b : Rect) :
  intersects a b = intersects b a
  /\ (intersects a a = true <->
      x (pos a) < x (pos a) + x (size a)
      /\ y (pos a) < y (pos a) + y (size a)).
Proof.
  split.
  - unfold intersects.
    rewrite (andb_comm (x (pos b) + x (size b) >? x (pos a))),
      (andb_comm (y (pos b) + y (size b) >? y (pos a))). reflexivity.
  - rewrite intersects_spec. tauto.
Qed.

End ContainFacts.

(** ** Expanding a rectangle *)

Section ExpandFacts.
Local Open Scope f32_scope.

Lemma binary_round_aux_pos (m e : Z) (l : location) :
  (0 <= m)%Z ->
  SFleb (S754_zero false) (binary_round_aux prec emax false m e l) = true.
Proof.
  intros H. unfold binary_round_aux.
  pose proof (shr_fexp_nonneg m e l H) as H1.
  destruct (shr_fexp prec emax m e l) as [mrs' e'] eqn:E1. cbn [fst] in H1.
  pose proof (shr_fexp_nonneg
                (round_nearest_even (shr_m mrs') (loc_of_shr_record mrs'))
                e' loc_Exact (round_nearest_even_nonneg _ _ H1)) as H2.
  destruct (shr_fexp prec emax _ e' loc_Exact) as [mrs'' e''] eqn:E2.
  cbn [fst] in H2.
  destruct (shr_m mrs'') as [|q|q]; [reflexivity| |lia].
  destruct (e'' <=? emax - prec)%Z; reflexivity.
Qed.

Lemma binary_normalize_nonneg (d e : Z) :
  (0 <= d)%Z ->
  SFleb (S754_zero false) (binary_normalize prec emax d e false) = true.
Proof.
  intros H. destruct d as [|q|q]; [reflexivity| |lia].
  cbn [binary_normalize]. unfold binary_round.
  destruct (shl_align q e _) as [mz ez].
  apply binary_round_aux_pos. lia.
Qed.

(** The difference of two binary32 data taken from the larger is zero
    or positive. *)
Lemma sub_nonneg (a b : float) :
  valid a = true -> valid b = true ->
  is_finite a = true -> is_finite b = true ->
  a <= b -> zero <= b - a.
Proof.
  destruct a as [sa|sa| |sa ma ea], b as [sb|sb| |sb mb eb];
    intros Hva Hvb Hfa Hfb Hle; try discriminate Hfa; try discriminate Hfb.
  - destruct sa, sb; reflexivity.
  - destruct sb; [discriminate Hle|reflexivity].
  - destruct sa; [reflexivity|discriminate Hle].
  - unfold F32.leb, F32.sub, SFsub, zero. apply binary_normalize_nonneg.
    rewrite !shl_align_value by lia.
    unfold F32.leb, SFleb, SFcompare in Hle.
    change (Pos.compare_cont Eq ma mb) with (ma ?= mb)%positive in Hle.
    assert (Ha : (0 < Zpos ma * 2 ^ (ea - Z.min eb ea))%Z)
      by (apply Z.mul_pos_pos; [lia|apply Z.pow_pos_nonneg; lia]).
    assert (Hb : (0 < Zpos mb * 2 ^ (eb - Z.min eb ea))%Z)
      by (apply Z.mul_pos_pos; [lia|apply Z.pow_pos_nonneg; lia]).
    destruct sa, sb; cbn [cond_Zopp]; try discriminate Hle; [| lia |].
    + destruct (Z.compare_spec ea eb) as [He|He|He]; try discriminate Hle.
      * subst eb. rewrite Z.min_id, Z.sub_diag in *.
        destruct (Pos.compare_spec ma mb); try discriminate Hle; lia.
      * pose proof (valid_exponent_order _ _ _ _ _ _ Hvb Hva He).
        rewrite Z.min_l, Z.sub_diag by lia. lia.
    + destruct (Z.compare_spec ea eb) as [He|He|He]; try discriminate Hle.
      * subst eb. rewrite Z.min_id, Z.sub_diag in *.
        destruct (Pos.compare_spec ma mb); try discriminate Hle; lia.
      * pose proof (valid_exponent_order _ _ _ _ _ _ Hva Hvb He).
        rewrite Z.min_r, Z.sub_diag by lia. lia.
Qed.

Lemma expand_axis (p s q t : float) :
  axis_expanded p s q t (fminf p q) (fmaxf (p + s) (q + t) - fminf p q).
Proof.
  unfold axis_expanded. cbv zeta.
  split; [reflexivity|]. split; [reflexivity|].
  split; [apply fminf_lower|]. split; [apply fmaxf_upper|].
  intros Hext Hq Hqt.
  destruct (leb_not_nan _ _ Hext) as [Hp Hps].
  destruct (fminf_lower p q Hp Hq) as [Hl _].
  destruct (fmaxf_upper (p + s) (q + t) Hps Hqt) as [Hu _].
  assert (Hle : fminf p q <= fmaxf (p + s) (q + t)).
  { apply leb_trans with p; [exact Hl|].
    apply leb_trans with (p + s); assumption. }
  split; [exact Hle|].
  intros Dp Dq Dps Dqt.
  assert (D1 : datum (fminf p q) = true)
    by (unfold fminf; destruct (_ || _); assumption).
  assert (D2 : datum (fmaxf (p + s) (q + t)) = true)
    by (unfold fmaxf; destruct (_ || _); assumption).
  unfold datum in D1, D2.
  apply andb_prop in D1 as [V1 F1]. apply andb_prop in D2 as [V2 F2].
  apply sub_nonneg; assumption.
Qed.

(** X29. [Rect::expand] returns, on each axis, the smaller of the two
    positions and, for size, the larger of the two far edges minus that
    position.  Without NaN that position is below both positions and that
    far edge above both far edges, and when the first rectangle has no
    negative extent the size returned is zero or positive. *)
Theorem expand_bounds (this other : Rect) :
  let r := expand this other in
  axis_expanded (x (pos this)) (x (size this))
                (x (pos other)) (x (size other))
                (x (pos r)) (x (size r))
  /\ axis_expanded (y (pos this)) (y (size this))
                   (y (pos other)) (y (size other))
                   (y (pos r)) (y (size r)).
Proof. cbv zeta. split; apply expand_axis. Qed.

Lemma expand_bounds_witness :
  zero <= x (size (expand (R 0 0 10 10) (R 5 (-5) 10 10)))
  /\ expand (R 0 0 10 10) (R 5 (-5) 10 10) = R 0 (-5) 15 15.
Proof.
  pose proof (expand_bounds (R 0 0 10 10) (R 5 (-5) 10 10))
    as [(_ & _ & _ & _ & H) _].
  specialize (H eq_refl eq_refl eq_refl) as [_ Hs].
  split; [apply Hs; reflexivity|reflexivity].
Defined.

End ExpandFacts.

(** ** Clamping a rectangle that the bound contains *)

Section ClampContained.
Local Open Scope f32_scope.

Lemma clamp2f_in_closed_span (v lo hi : float) :
  lo <= v -> v <= hi -> clamp2f v lo hi = v.
Proof.
  intros H1 H2.
  assert (Hord : lo <= hi) by (apply leb_trans with v; assumption).
  destruct (fmaxf_ordered lo hi Hord) as (Hmin & _ & _ & HMge).
  unfold clamp2f. rewrite Hmin. unfold clampf.
  assert (E1 : (v <? lo) = false).
  { destruct (v <? lo) eqn:E1; [exfalso|reflexivity].
    apply (ltb_irrefl v). apply ltb_leb_trans with lo; assumption. }
  rewrite E1, (leb_not_gtb v (fmaxf lo hi)); [reflexivity|].
  apply leb_trans with hi; assumption.
Qed.

Lemma clampf_in_closed_span (v lo hi : float) :
  lo <= v -> v <= hi -> clampf v lo hi = v.
Proof.
  intros H1 H2. unfold clampf.
  assert (E1 : (v <? lo) = false).
  { destruct (v <? lo) eqn:E1; [exfalso|reflexivity].
    apply (ltb_irrefl v). apply ltb_leb_trans with lo; assumption. }
  rewrite E1, (leb_not_gtb v hi H2). reflexivity.
Qed.

(** X30. Clamping a rectangle of no negative extent to a bound that
    contains it keeps its position, but the size is computed again as
    far edge minus position and is not always the size given: at position
    [2^24] a width of 1 is lost in the far edge and comes back as 0. *)
Theorem clamp_contained (this bound : Rect) :
  containsRect bound this = true ->
  x (pos this) <= x (pos this) + x (size this) ->
  y (pos this) <= y (pos this) + y (size this) ->
  pos (clamp this bound) = pos this
  /\ x (size (clamp this bound)) = x (pos this) + x (size this) - x (pos this)
  /\ y (size (clamp this bound)) = y (pos this) + y (size this) - y (pos this)
  /\ x (size (clamp (R 16777216 0 1 1) (R 0 0 33554432 10))) = zero.
Proof.
  intros Hc Hx Hy. apply containsRect_spec in Hc as [[Cx1 Cx2] [Cy1 Cy2]].
  unfold clamp. cbn [pos size x y].
  rewrite (clamp2f_in_closed_span (x (pos this)))
    by (try assumption; apply leb_trans with (x (pos this) + x (size this));
        assumption).
  rewrite (clamp2f_in_closed_span (y (pos this)))
    by (try assumption; apply leb_trans with (y (pos this) + y (size this));
        assumption).
  rewrite (clampf_in_closed_span (x (pos this) + x (size this)))
    by (try assumption; apply leb_trans with (x (pos this)); assumption).
  rewrite (clampf_in_closed_span (y (pos this) + y (size this)))
    by (try assumption; apply leb_trans with (y (pos this)); assumption).
  destruct this as [[px py] sz]. cbn [pos size x y].
  repeat split; reflexivity.
Qed.

Lemma clamp_contained_witness :
  pos (clamp (R 2 2 3 3) (R 0 0 10 10)) = pos (R 2 2 3 3)
  /\ size (clamp (R 2 2 3 3) (R 0 0 10 10)) = size (R 2 2 3 3).
Proof.
  pose proof (clamp_contained (R 2 2 3 3) (R 0 0 10 10)
                eq_refl eq_refl eq_refl) as (H1 & _).
  split; [exact H1|reflexivity].
Defined.

End ClampContained.

(** ** The auto-ordering clamp and the clamp of a rectangle, revisited *)

Section ClampAuto.
Local Open Scope f32_scope.

(** C6, as stated, fails: with the bounds [+0.0] and [-0.0] the two
    orders give the two different zeros, and with a NaN [x] both results
    are NaN, which [==] tells apart from itself. *)
Lemma clamp2f_swap_counterexample :
  clamp2f (F (-1)) (S754_zero false) (S754_zero true) = S754_zero false
  /\ clamp2f (F (-1)) (S754_zero true) (S754_zero false) = S754_zero true
  /\ clamp2f (F (-1)) (S754_zero false) (S754_zero true)
     <> clamp2f (F (-1)) (S754_zero true) (S754_zero false)
  /\ (clamp2f nan (F 0) (F 10) =? clamp2f nan (F 10) (F 0)) = false.
Proof. repeat split; try reflexivity. discriminate. Qed.

(** C6, amended. [clamp2f] reorders its bounds, [lo = fminf(min, max)]
    and [hi = fmaxf(min, max)], and then clamps: it returns [lo] when
    [x < lo], otherwise [hi] when [x > hi], otherwise [x].  Without NaN
    bounds [lo] is below and [hi] above both bounds, whatever their order,
    and a [x] that is not NaN is brought between them.  Swapping the
    bounds gives, for a [x] that is not NaN, a result that is [==], and
    the very same datum whenever the bounds are not [==] (as for 10 and
    0); for a NaN [x] both results are [x]. *)
Theorem clamp2f_order_independent (x min max : float) :
  let lo := fminf min max in
  let hi := fmaxf min max in
  clamp2f x min max = clampf x lo hi
  /\ (x < lo -> clamp2f x min max = lo)
  /\ (~ x < lo -> x > hi -> clamp2f x min max = hi)
  /\ (~ x < lo -> ~ x > hi -> clamp2f x min max = x)
  /\ (is_nan min = false -> is_nan max = false ->
      (lo <= min /\ lo <= max) /\ (min <= hi /\ max <= hi) /\ lo <= hi
      /\ (is_nan x = false ->
          lo <= clamp2f x min max /\ clamp2f x min max <= hi))
  /\ (is_nan x = false -> clamp2f x min max == clamp2f x max min)
  /\ (is_nan x = true -> clamp2f x min max = x /\ clamp2f x max min = x)
  /\ (F32.eqb min max = false -> clamp2f x min max = clamp2f x max min)
  /\ clamp2f x (F 10) (F 0) = clamp2f x (F 0) (F 10).
Proof.
  cbv zeta.
  assert (Hne : forall a b, F32.eqb a b = false ->
                            clamp2f x a b = clamp2f x b a).
  { intros a b Hab. destruct (clamp2f_swap_cases x a b) as [H|[E _]];
      [exact H|]. apply eqb_compare in E. congruence. }
  assert (Hnn : is_nan x = false -> forall a b, is_nan (clamp2f x a b) = false).
  { intros Hx a b. unfold clamp2f, clampf.
    destruct (x <? fminf a b) eqn:E1.
    - apply ltb_compare, eq_sym, SFcompare_nan_ne in E1. tauto.
    - destruct (x >? fmaxf a b) eqn:E2; [|exact Hx].
      apply gtb_compare, eq_sym, SFcompare_nan_ne in E2. tauto. }
  split; [reflexivity|].
  split; [intros H; unfold clamp2f, clampf; rewrite H; reflexivity|].
  split.
  { intros H1 H2. unfold clamp2f, clampf.
    destruct (x <? fminf min max); [now elim H1|]. rewrite H2. reflexivity. }
  split.
  { intros H1 H2. unfold clamp2f, clampf.
    destruct (x <? fminf min max); [now elim H1|].
    destruct (x >? fmaxf min max); [now elim H2|]. reflexivity. }
  split.
  { intros Hmin Hmax.
    split; [apply fminf_lower; assumption|].
    split; [apply fmaxf_upper; assumption|].
    split; [apply fminf_le_fmaxf; assumption|].
    intros Hx. apply clampf_in_range; [exact Hx|].
    apply fminf_le_fmaxf; assumption. }
  split.
  { intros Hx. destruct (clamp2f_swap_cases x min max) as [<-|[_ H]];
      [|exact H].
    apply eqb_compare, SFcompare_refl, Hnn, Hx. }
  split.
  { intros Hx. apply is_nan_inv in Hx. subst x.
    unfold clamp2f. rewrite !clampf_nan_arg. split; reflexivity. }
  split; [apply Hne|]. apply Hne. reflexivity.
Qed.

Lemma clamp2f_order_independent_witness :
  clamp2f (F 12) (F 10) (F 0) = F 10
  /\ clamp2f (F (-1)) (S754_zero false) (S754_zero true)
     == clamp2f (F (-1)) (S754_zero true) (S754_zero false)
  /\ clamp2f (F 12) (F 10) (F 0) = clamp2f (F 12) (F 0) (F 10).
Proof.
  pose proof (clamp2f_order_independent (F 12) (F 10) (F 0))
    as (_ & _ & Hhi & _ & _ & _ & _ & Hsw & _).
  pose proof (clamp2f_order_independent (F (-1)) (S754_zero false)
                (S754_zero true)) as (_ & _ & _ & _ & _ & Heq & _).
  cbv zeta in Hhi.
  split; [apply Hhi; [discriminate|reflexivity]|].
  split; [apply Heq; reflexivity|apply Hsw; reflexivity].
Defined.




End ClampAuto.
